(** * Shallow embedding of the CSC4010 image search-and-transform programs

    Sources: [rawimage.h] (pixel/image data model, [ImageData], [LoadFile],
    [WriteFile], [Greyscale], [XOR], [PrintRGBValue]), [process-b.c] (sequential reference), [process-b_tc2.c]
    (phased barrier executor, atomic counters), [process-b_tc4.c] (tiled
    phased executor, thread-local counters), [process-a_tc2.c] (row-parallel,
    thread-local counters), [process-a_tc3.c] (row-parallel, atomic
    counters), [process-b_tc3.c] (team per run, thread-local counters) and
    [process-a_tc4.c] (task per row).

    C [int] channels are modelled as [Z] with 32-bit two's complement
    wrap-around written out; C [unsigned long] counters as [Z] modulo 2^64.
    An OpenMP team is modelled by an explicit execution record fixing the
    choices the runtime makes: thread count, which thread runs each
    [single], the order in which the iterations of a worksharing loop are
    executed (tagged by the executing thread), and the indeterminate
    contents of uninitialised automatic variables. *)

From Stdlib Require Import ZArith List Lia Bool Permutation String.
Import ListNotations.
Open Scope Z_scope.

(** ** Machine integers *)

(** [int]: 32-bit two's complement. *)
Definition int_wrap (z : Z) : Z := (z + 2 ^ 31) mod 2 ^ 32 - 2 ^ 31.

Definition iadd (a b : Z) : Z := int_wrap (a + b).
Definition isub (a b : Z) : Z := int_wrap (a - b).
(** C division truncates toward zero. *)
Definition idiv (a b : Z) : Z := int_wrap (Z.quot a b).

(** [unsigned long]: 64-bit unsigned. *)
Definition ulong_wrap (z : Z) : Z := z mod 2 ^ 64.

(** ** Data model ([struct Pixel], [struct Image]) *)

Record Pixel := mkPixel { red : Z; green : Z; blue : Z }.

Definition zero_px : Pixel := mkPixel 0 0 0.

Module Img.
Record t := mk {
    length : nat;
    lines : nat;
    linesize : nat;
    pixels : list (list Pixel)
  }.
End Img.

(** Update of an array element by index; indices used by the programs are
    always in range. *)
Fixpoint set_nth {A} (n : nat) (l : list A) (x : A) : list A :=
  match l, n with
  | [], _ => []
  | _ :: t, O => x :: t
  | h :: t, S n' => h :: set_nth n' t x
  end.

(** ** Library functions of [rawimage.h] *)

(** [Greyscale]: [avg = (red + green + blue) / 3]. *)
Definition Greyscale (p : Pixel) : Pixel :=
  let avg := idiv (iadd (iadd (red p) (green p)) (blue p)) 3 in
  mkPixel avg avg avg.

(** [XOR]: channel-wise [^ val]. *)
Definition XOR (p : Pixel) (val : Z) : Pixel :=
  mkPixel (Z.lxor (red p) val) (Z.lxor (green p) val) (Z.lxor (blue p) val).

(** ** Search step (shared by every variant) *)

(** The match test [img.pixels[l][p].red == search.pixels[0][i].red && ...]. *)
Definition px_eqb (a b : Pixel) : bool :=
  (red a =? red b) && (green a =? green b) && (blue a =? blue b).

(** [counter[i]++] on an [unsigned long] array. *)
Definition incr (cnt : list Z) (i : nat) : list Z :=
  set_nth i cnt (ulong_wrap (nth i cnt 0 + 1)).

(** One iteration [i] of a search loop against the value [v]. *)
Definition search_iter (search : list Pixel) (v : Pixel) (cnt : list Z) (i : nat)
  : list Z :=
  if px_eqb v (nth i search zero_px) then incr cnt i else cnt.

(** [for (i = 0; i < search.length; ++i) ...]. *)
Definition search_pass (search : list Pixel) (v : Pixel) (cnt : list Z) : list Z :=
  fold_left (search_iter search v) (seq 0 (List.length search)) cnt.

(** ** Bleed (process-b.c lines 279-306, one row) *)

Definition add3 (acc : Z * Z * Z) (q : Pixel) : Z * Z * Z :=
  let '(r, g, b) := acc in (iadd r (red q), iadd g (green q), iadd b (blue q)).

(** The loop [for (i = startpix; i < p; ++i) rav += ...]. *)
Definition window_sum (row : list Pixel) (startpix p : nat) : Z * Z * Z :=
  fold_left (fun acc i => add3 acc (nth i row zero_px))
    (seq startpix (p - startpix)) (0, 0, 0).

Definition bleed (row : list Pixel) (p : nat) : list Pixel :=
  if Nat.eqb p 0 then row else
  let pixlen : Z := if Nat.ltb 10 p then 10 else Z.of_nat p in
  let startpix : nat := if Nat.ltb 10 p then (p - 10)%nat else 0%nat in
  let '(rav, gav, bav) := window_sum row startpix p in
  let rav := idiv rav pixlen in
  let gav := idiv gav pixlen in
  let bav := idiv bav pixlen in
  let cur := nth p row zero_px in
  set_nth p row
    (mkPixel (iadd (red cur) (idiv (isub rav (red cur)) 3))
             (iadd (green cur) (idiv (isub gav (green cur)) 3))
             (iadd (blue cur) (idiv (isub bav (blue cur)) 3))).

(** Bleed + [Greyscale] + [XOR(...,13)] of column [p]. *)
Definition transform (row : list Pixel) (p : nat) : list Pixel :=
  let row1 := bleed row p in
  set_nth p row1 (XOR (Greyscale (nth p row1 zero_px)) 13).

(** ** Sequential reference (process-b.c lines 265-324) *)

(** Body of the [p] loop on the single line [img.pixels[0]]. *)
Definition b_step (search : list Pixel) (st : list Pixel * list Z) (p : nat)
  : list Pixel * list Z :=
  let '(row, cnt) := st in
  let cnt1 := search_pass search (nth p row zero_px) cnt in
  let row2 := transform row p in
  let cnt2 := search_pass search (nth p row2 zero_px) cnt1 in
  (row2, cnt2).

Definition b_loop (search : list Pixel) (row : list Pixel) (cnt : list Z)
  : list Pixel * list Z :=
  fold_left (b_step search) (seq 0 (List.length row)) (row, cnt).

Definition zeros (n : nat) : list Z := repeat 0 n.

Example greyscale_xor_20 : XOR (Greyscale (mkPixel 10 20 30)) 13 = mkPixel 25 25 25.
Proof. reflexivity. Qed.

(** ** Bleed as the specification words it (refinement target of C2) *)

(** Sum of one channel over a list of pixels, in [int]. *)
Definition ch_sum (f : Pixel -> Z) (ws : list Pixel) : Z :=
  int_wrap (fold_right (fun q s => f q + s) 0 ws).

(** Average the [n = length ws] window pixels, add [(average - current)/3]. *)
Definition bleed_px_spec (ws : list Pixel) (cur : Pixel) : Pixel :=
  let n := Z.of_nat (List.length ws) in
  let adj (f : Pixel -> Z) := iadd (f cur) (idiv (isub (idiv (ch_sum f ws) n) (f cur)) 3) in
  mkPixel (adj red) (adj green) (adj blue).

(** The columns [p-n .. p-1] of [row]. *)
Definition window (row : list Pixel) (p n : nat) : list Pixel :=
  map (fun j => nth j row zero_px) (seq (p - n) n).

(** ** General lemmas *)

Lemma int_wrap_add_l (a b : Z) : int_wrap (int_wrap a + b) = int_wrap (a + b).
Proof.
  unfold int_wrap.
  replace ((a + 2 ^ 31) mod 2 ^ 32 - 2 ^ 31 + b + 2 ^ 31)
    with ((a + 2 ^ 31) mod 2 ^ 32 + b) by lia.
  rewrite Z.add_mod_idemp_l by lia. f_equal. f_equal. lia.
Qed.

Lemma set_nth_length {A} (n : nat) (l : list A) (x : A) :
  List.length (set_nth n l x) = List.length l.
Proof.
  revert n; induction l as [|h t IH]; intros [|n]; simpl; auto.
Qed.

Lemma nth_set_nth_eq {A} (n : nat) (l : list A) (x d : A) :
  (n < List.length l)%nat -> nth n (set_nth n l x) d = x.
Proof.
  revert n; induction l as [|h t IH]; intros [|n] H; simpl in *; try lia; auto.
  apply IH; lia.
Qed.

Lemma nth_set_nth_neq {A} (n j : nat) (l : list A) (x d : A) :
  j <> n -> nth j (set_nth n l x) d = nth j l d.
Proof.
  revert n j; induction l as [|h t IH]; intros [|n] [|j] H; simpl;
    auto; try lia; apply IH; lia.
Qed.

Lemma set_nth_oob {A} (n : nat) (l : list A) (x : A) :
  (List.length l <= n)%nat -> set_nth n l x = l.
Proof.
  revert n; induction l as [|h t IH]; intros [|n] H; simpl in *; auto; try lia.
  f_equal; apply IH; lia.
Qed.

Lemma fold_left_ext_in {A B} (f g : A -> B -> A) (l : list B) (a : A) :
  (forall x b, In b l -> f x b = g x b) -> fold_left f l a = fold_left g l a.
Proof.
  revert a; induction l as [|b l IH]; intros a H; simpl; auto.
  rewrite H by (left; auto). apply IH. intros; apply H; right; auto.
Qed.

Lemma bleed_length (row : list Pixel) (p : nat) :
  List.length (bleed row p) = List.length row.
Proof.
  unfold bleed. destruct (Nat.eqb p 0); auto.
  destruct (window_sum _ _ _) as [[r g] b]. apply set_nth_length.
Qed.

Lemma transform_length (row : list Pixel) (p : nat) :
  List.length (transform row p) = List.length row.
Proof. unfold transform. rewrite set_nth_length. apply bleed_length. Qed.

Lemma bleed_other (row : list Pixel) (p j : nat) :
  j <> p -> nth j (bleed row p) zero_px = nth j row zero_px.
Proof.
  intros H. unfold bleed. destruct (Nat.eqb p 0); auto.
  destruct (window_sum _ _ _) as [[r g] b]. apply nth_set_nth_neq; auto.
Qed.

Lemma transform_other (row : list Pixel) (p j : nat) :
  j <> p -> nth j (transform row p) zero_px = nth j row zero_px.
Proof.
  intros H. unfold transform. rewrite nth_set_nth_neq by auto. apply bleed_other; auto.
Qed.

(** The transform of column [p] reads only columns [<= p]. *)
Lemma transform_prefix (row1 row2 : list Pixel) (p : nat) :
  List.length row1 = List.length row2 ->
  (forall j, (j <= p)%nat -> nth j row1 zero_px = nth j row2 zero_px) ->
  nth p (transform row1 p) zero_px = nth p (transform row2 p) zero_px.
Proof.
  intros Hl Hj. unfold transform.
  destruct (Nat.lt_ge_cases p (List.length row1)) as [Hp|Hp].
  2:{ rewrite !set_nth_oob by (rewrite bleed_length; lia).
      rewrite !nth_overflow by (rewrite bleed_length; lia). reflexivity. }
  rewrite !nth_set_nth_eq by (rewrite bleed_length; lia). f_equal. f_equal.
  unfold bleed. destruct (Nat.eqb p 0); [apply Hj; lia|].
  assert (Hw : forall s, (s <= p)%nat -> window_sum row1 s p = window_sum row2 s p).
  { intros s Hs. unfold window_sum. apply fold_left_ext_in.
    intros acc i Hi. apply in_seq in Hi. rewrite Hj by lia. reflexivity. }
  rewrite Hw by (destruct (Nat.ltb 10 p); lia).
  destruct (window_sum _ _ _) as [[r g] b].
  rewrite !nth_set_nth_eq by lia. rewrite Hj by lia. reflexivity.
Qed.

Lemma add3_fold (f : nat -> Pixel) (l : list nat) (r g b : Z) :
  fold_left (fun acc i => add3 acc (f i)) l (int_wrap r, int_wrap g, int_wrap b) =
  (int_wrap (r + fold_right (fun q s => red q + s) 0 (map f l)),
   int_wrap (g + fold_right (fun q s => green q + s) 0 (map f l)),
   int_wrap (b + fold_right (fun q s => blue q + s) 0 (map f l))).
Proof.
  revert r g b; induction l as [|i l IH]; intros r g b; simpl.
  - rewrite !Z.add_0_r. reflexivity.
  - unfold iadd. rewrite !int_wrap_add_l. rewrite IH. rewrite !Z.add_assoc. reflexivity.
Qed.

Lemma window_sum_spec (row : list Pixel) (s p : nat) :
  window_sum row s p =
  (ch_sum red (map (fun j => nth j row zero_px) (seq s (p - s))),
   ch_sum green (map (fun j => nth j row zero_px) (seq s (p - s))),
   ch_sum blue (map (fun j => nth j row zero_px) (seq s (p - s)))).
Proof.
  unfold window_sum, ch_sum.
  change (0, 0, 0) with (int_wrap 0, int_wrap 0, int_wrap 0).
  rewrite add3_fold. reflexivity.
Qed.

(** *** The state of the reference loop at the start of iteration [p] *)

Lemma b_fold_fst (search : list Pixel) (l : list nat) (st : list Pixel * list Z) :
  fst (fold_left (b_step search) l st) = fold_left transform l (fst st).
Proof.
  revert st; induction l as [|p l IH]; intros [row cnt]; simpl; [reflexivity|].
  rewrite IH. reflexivity.
Qed.

Lemma fold_transform_length (l : list nat) (row : list Pixel) :
  List.length (fold_left transform l row) = List.length row.
Proof.
  revert row; induction l as [|p l IH]; intros row; simpl; auto.
  rewrite IH. apply transform_length.
Qed.

Lemma fold_transform_other (l : list nat) (row : list Pixel) (j : nat) :
  ~ In j l -> nth j (fold_left transform l row) zero_px = nth j row zero_px.
Proof.
  revert row; induction l as [|p l IH]; intros row Hj; simpl; auto.
  rewrite IH by (intro; apply Hj; right; auto).
  apply transform_other. intro; apply Hj; left; auto.
Qed.

(** Columns before [p] already hold their final value, columns from [p] on
    still hold the input. *)
Lemma b_prefix_state (search : list Pixel) (row : list Pixel) (cnt : list Z) (p j : nat) :
  (p <= List.length row)%nat ->
  nth j (fst (fold_left (b_step search) (seq 0 p) (row, cnt))) zero_px =
  if Nat.ltb j p then nth j (fst (b_loop search row cnt)) zero_px
  else nth j row zero_px.
Proof.
  intros Hp. unfold b_loop. rewrite !b_fold_fst. simpl.
  replace (List.length row) with (p + (List.length row - p))%nat by lia.
  rewrite seq_app, fold_left_app. simpl.
  destruct (Nat.ltb_spec j p) as [Hlt|Hge].
  - symmetry. apply fold_transform_other. rewrite in_seq; lia.
  - apply fold_transform_other. rewrite in_seq; lia.
Qed.

Lemma b_prefix_length (search : list Pixel) (row : list Pixel) (cnt : list Z) (l : list nat) :
  List.length (fst (fold_left (b_step search) l (row, cnt))) = List.length row.
Proof. rewrite b_fold_fst. apply fold_transform_length. Qed.

(** ** Claims about the sequential reference *)

(** C2 (bleed of the sequential reference): in the reference run, the bleed
    step of iteration [p] leaves the row alone when [p = 0]; otherwise, with
    [n = min 10 p], it replaces column [p] by the input pixel adjusted, per
    channel, by [(avg - current)/3], where [avg] is the truncating average of
    the [n] columns [p-n .. p-1] in their final (already transformed) state;
    no other column is changed. *)
Theorem bleed_window_reference (search : list Pixel) (row : list Pixel) (cnt : list Z)
  (p : nat) :
  (p < List.length row)%nat ->
  nth p (bleed (fst (fold_left (b_step search) (seq 0 p) (row, cnt))) p) zero_px =
    (if Nat.eqb p 0 then nth p row zero_px
     else bleed_px_spec (window (fst (b_loop search row cnt)) p (Nat.min 10 p))
                        (nth p row zero_px))
  /\ (forall j, j <> p ->
      nth j (bleed (fst (fold_left (b_step search) (seq 0 p) (row, cnt))) p) zero_px =
      nth j (fst (fold_left (b_step search) (seq 0 p) (row, cnt))) zero_px).
Proof.
  intros Hp.
  set (cur := fst (fold_left (b_step search) (seq 0 p) (row, cnt))).
  assert (Hc : nth p cur zero_px = nth p row zero_px).
  { unfold cur. rewrite b_prefix_state by lia. rewrite Nat.ltb_irrefl. reflexivity. }
  split; [|intros j Hj; apply bleed_other; exact Hj].
  unfold bleed. destruct (Nat.eqb_spec p 0) as [H0|H0]; [exact Hc|].
  assert (Hs : (if Nat.ltb 10 p then (p - 10)%nat else 0%nat) = (p - Nat.min 10 p)%nat)
    by (destruct (Nat.ltb_spec 10 p); lia).
  assert (Hz : (if Nat.ltb 10 p then 10 else Z.of_nat p) = Z.of_nat (Nat.min 10 p))
    by (destruct (Nat.ltb_spec 10 p); lia).
  rewrite Hs, Hz, window_sum_spec.
  replace (p - (p - Nat.min 10 p))%nat with (Nat.min 10 p) by lia.
  assert (Hw : map (fun j => nth j cur zero_px) (seq (p - Nat.min 10 p) (Nat.min 10 p))
               = window (fst (b_loop search row cnt)) p (Nat.min 10 p)).
  { unfold window. apply map_ext_in. intros j Hj. apply in_seq in Hj.
    unfold cur. rewrite b_prefix_state by lia.
    destruct (Nat.ltb_spec j p); [reflexivity|lia]. }
  rewrite Hw, Hc.
  rewrite nth_set_nth_eq by (unfold cur; rewrite b_prefix_length; lia).
  unfold bleed_px_spec, window. rewrite length_map, length_seq. reflexivity.
Qed.

Definition scen_row : list Pixel := [mkPixel 10 20 30; mkPixel 40 50 60; mkPixel 70 80 90].
Definition scen_search : list Pixel := [mkPixel 10 20 30].

(** C3 (concrete scenario): on the one-row grid
    [[(10,20,30),(40,50,60),(70,80,90)]] with search list [[(10,20,30)]],
    iteration [p = 0] of the reference: the pre-search raises the counter to
    1, bleed leaves the row unchanged, greyscale gives (20,20,20), XOR with 13
    gives (25,25,25), the post-search does not match and the counter is 1
    after the iteration. *)
Theorem reference_scenario_p0 :
  search_pass scen_search (nth 0 scen_row zero_px) (zeros 1) = [1]
  /\ bleed scen_row 0 = scen_row
  /\ Greyscale (nth 0 (bleed scen_row 0) zero_px) = mkPixel 20 20 20
  /\ XOR (Greyscale (nth 0 (bleed scen_row 0) zero_px)) 13 = mkPixel 25 25 25
  /\ px_eqb (mkPixel 25 25 25) (nth 0 scen_search zero_px) = false
  /\ b_step scen_search (scen_row, zeros 1) 0
     = ([mkPixel 25 25 25; mkPixel 40 50 60; mkPixel 70 80 90], [1]).
Proof. repeat split; vm_compute; reflexivity. Qed.

(** ** OpenMP team executions *)

(** The runtime's choices during one run of a team. *)
Record Exec := mkExec {
  nthreads : nat;
  (** thread that executes the [single] capture before / after the transform
      of column [p] *)
  single_pre : nat -> nat;
  single_post : nat -> nat;
  (** iterations [(thread, i)] of the search worksharing loop at column [p]
      (before: [false], after: [true]), in the order they are executed *)
  work : nat -> bool -> list (nat * nat);
  (** indeterminate value of thread [t]'s fresh automatic [r,g,b] at column
      [p] *)
  junk : nat -> nat -> bool -> Pixel;
  (** number of lanes of the [omp simd reduction] *)
  simd_lanes : nat
}.

(** A well-formed execution for a search list of [N] entries and a row of
    [L] columns: every [single] runs on a team thread, and each worksharing
    loop runs every iteration [0 .. N-1] exactly once, on team threads. *)
Definition wf_exec (x : Exec) (N L : nat) : Prop :=
  (1 <= nthreads x)%nat /\ (1 <= simd_lanes x)%nat /\
  forall p, (p < L)%nat ->
    (single_pre x p < nthreads x)%nat /\ (single_post x p < nthreads x)%nat /\
    forall b, Permutation (map snd (work x p b)) (seq 0 N) /\
              forall t i, In (t, i) (work x p b) -> (t < nthreads x)%nat.

(** [schedule(static, c)]: chunk [k] of [c] iterations goes to thread
    [k mod T]. *)
Definition static_sched (T c N t : nat) : list nat :=
  filter (fun i => Nat.eqb ((i / c) mod T) t) (seq 0 N).

(** One interleaving of the threads' iterations: thread 0's, then thread 1's, ... *)
Definition team_order (T : nat) (sched : nat -> list nat) : list (nat * nat) :=
  flat_map (fun t => map (pair t) (sched t)) (seq 0 T).

(** ** Phased barrier executor (process-b_tc2.c lines 55-149) *)

(** [int r0, g0, b0;] declared inside the parallel region is private to each
    thread; [#pragma omp single { r0 = ...; }] assigns only the copy of the
    thread that executes the [single]. *)
Definition capture (x : Exec) (p : nat) (post : bool) (v : Pixel) (t : nat) : Pixel :=
  if Nat.eqb t (if post then single_post x p else single_pre x p) then v
  else junk x t p post.

(** [#pragma omp for schedule(runtime)] over [i] with [#pragma omp atomic
    counter[i]++]: iteration [i] run by thread [t] compares [t]'s scalars. *)
Definition par_search (search : list Pixel) (scal : nat -> Pixel)
  (w : list (nat * nat)) (cnt : list Z) : list Z :=
  fold_left (fun c ti => search_iter search (scal (fst ti)) c (snd ti)) w cnt.

(** The [omp simd reduction(+:rav)] loop over [startpix .. p-1] for one
    channel: lane [k] sums the indices [i] with [i mod lanes = k] into a
    private copy initialised to 0, and the copies are added into [rav = 0]. *)
Definition lane_sum (f : Pixel -> Z) (row : list Pixel) (startpix p lanes k : nat) : Z :=
  fold_left (fun a i => iadd a (f (nth i row zero_px)))
    (filter (fun i => Nat.eqb (i mod lanes) k) (seq startpix (p - startpix))) 0.

Definition simd_sum (f : Pixel -> Z) (row : list Pixel) (startpix p lanes : nat) : Z :=
  fold_left (fun a k => iadd a (lane_sum f row startpix p lanes k)) (seq 0 lanes) 0.

(** Bleed of process-b_tc2.c lines 86-115 (with its [pixlen > 0] guard). *)
Definition bleed_tc (lanes : nat) (row : list Pixel) (p : nat) : list Pixel :=
  if Nat.eqb p 0 then row else
  let pixlen : Z := if Nat.ltb 10 p then 10 else Z.of_nat p in
  let startpix : nat := if Nat.ltb 10 p then (p - 10)%nat else 0%nat in
  let rav := simd_sum red row startpix p lanes in
  let gav := simd_sum green row startpix p lanes in
  let bav := simd_sum blue row startpix p lanes in
  if Z.ltb 0 pixlen then
    let rav := idiv rav pixlen in
    let gav := idiv gav pixlen in
    let bav := idiv bav pixlen in
    let cur := nth p row zero_px in
    set_nth p row
      (mkPixel (iadd (red cur) (idiv (isub rav (red cur)) 3))
               (iadd (green cur) (idiv (isub gav (green cur)) 3))
               (iadd (blue cur) (idiv (isub bav (blue cur)) 3)))
  else row.

Definition transform_tc (lanes : nat) (row : list Pixel) (p : nat) : list Pixel :=
  let row1 := bleed_tc lanes row p in
  set_nth p row1 (XOR (Greyscale (nth p row1 zero_px)) 13).

(** One column of the phased cycle: capture-pre, search-pre, transform
    (single), capture-post, search-post, each followed by a barrier. *)
Definition tc2_cycle (search : list Pixel) (x : Exec) (st : list Pixel * list Z) (p : nat)
  : list Pixel * list Z :=
  let '(row, cnt) := st in
  let s0 := capture x p false (nth p row zero_px) in
  let cnt1 := par_search search s0 (work x p false) cnt in
  let row2 := transform_tc (simd_lanes x) row p in
  let s1 := capture x p true (nth p row2 zero_px) in
  let cnt2 := par_search search s1 (work x p true) cnt1 in
  (row2, cnt2).

Definition tc2_loop (search : list Pixel) (x : Exec) (row : list Pixel) (cnt : list Z)
  : list Pixel * list Z :=
  fold_left (tc2_cycle search x) (seq 0 (List.length row)) (row, cnt).

(** *** Sums in [int] *)

Lemma int_wrap_add_r (a b : Z) : int_wrap (a + int_wrap b) = int_wrap (a + b).
Proof. rewrite (Z.add_comm a), int_wrap_add_l, Z.add_comm. reflexivity. Qed.

Lemma iadd_fold {B} (g : B -> Z) (l : list B) (a0 : Z) :
  fold_left (fun a x => iadd a (g x)) l (int_wrap a0) =
  int_wrap (a0 + fold_right (fun x s => g x + s) 0 l).
Proof.
  revert a0; induction l as [|x l IH]; intros a0; simpl.
  - rewrite Z.add_0_r. reflexivity.
  - unfold iadd at 2. rewrite int_wrap_add_l, IH, Z.add_assoc. reflexivity.
Qed.

Lemma iadd_fold0 {B} (g : B -> Z) (l : list B) :
  fold_left (fun a x => iadd a (g x)) l 0 = int_wrap (fold_right (fun x s => g x + s) 0 l).
Proof.
  pose proof (iadd_fold g l 0) as H. rewrite Z.add_0_l in H. exact H.
Qed.

Lemma int_wrap_sum_inner {B} (h : B -> Z) (l : list B) :
  int_wrap (fold_right (fun x s => int_wrap (h x) + s) 0 l) =
  int_wrap (fold_right (fun x s => h x + s) 0 l).
Proof.
  induction l as [|x l IH]; simpl; auto.
  rewrite int_wrap_add_l, <- int_wrap_add_r, IH, int_wrap_add_r. reflexivity.
Qed.

Lemma sum_app {B} (g : B -> Z) (l1 l2 : list B) :
  fold_right (fun x s => g x + s) 0 (l1 ++ l2) =
  fold_right (fun x s => g x + s) 0 l1 + fold_right (fun x s => g x + s) 0 l2.
Proof. induction l1 as [|x l1 IH]; simpl; lia. Qed.

Lemma sum_perm {B} (g : B -> Z) (l1 l2 : list B) :
  Permutation l1 l2 ->
  fold_right (fun x s => g x + s) 0 l1 = fold_right (fun x s => g x + s) 0 l2.
Proof. induction 1; simpl; lia. Qed.

Lemma sum_flat_map {B C} (g : C -> Z) (F : B -> list C) (ks : list B) :
  fold_right (fun x s => g x + s) 0 (flat_map F ks) =
  fold_right (fun k s => fold_right (fun x s => g x + s) 0 (F k) + s) 0 ks.
Proof. induction ks as [|k ks IH]; simpl; auto. rewrite sum_app, IH. reflexivity. Qed.

Lemma sum_map {B} (f : Pixel -> Z) (g : B -> Pixel) (l : list B) :
  fold_right (fun q s => f q + s) 0 (map g l) = fold_right (fun i s => f (g i) + s) 0 l.
Proof. induction l as [|x l IH]; simpl; auto. rewrite IH. reflexivity. Qed.

(** Splitting an index list into the [lanes] residue classes. *)
Lemma filter_lt_succ (h : nat -> nat) (m : nat) (l : list nat) :
  Permutation (filter (fun i => Nat.ltb (h i) (S m)) l)
              (filter (fun i => Nat.ltb (h i) m) l ++ filter (fun i => Nat.eqb (h i) m) l).
Proof.
  induction l as [|i l IH]; simpl; auto.
  destruct (Nat.ltb_spec (h i) (S m)), (Nat.ltb_spec (h i) m), (Nat.eqb_spec (h i) m);
    try lia; simpl; auto;
    first [ apply perm_skip; exact IH
          | eapply Permutation_trans; [apply perm_skip; exact IH | apply Permutation_middle] ].
Qed.

Lemma lanes_partition (lanes : nat) (l : list nat) :
  (1 <= lanes)%nat ->
  Permutation (flat_map (fun k => filter (fun i => Nat.eqb (i mod lanes) k) l) (seq 0 lanes)) l.
Proof.
  intros Hl.
  assert (H : forall m, Permutation
            (flat_map (fun k => filter (fun i => Nat.eqb (i mod lanes) k) l) (seq 0 m))
            (filter (fun i => Nat.ltb (i mod lanes) m) l)).
  { induction m as [|m IH].
    - simpl. induction l as [|i l IHl]; simpl; auto.
    - rewrite seq_S, flat_map_app, IH. simpl. rewrite app_nil_r.
      symmetry. apply filter_lt_succ. }
  rewrite H. clear H. induction l as [|i l IH]; simpl; auto.
  destruct (Nat.ltb_spec (i mod lanes) lanes) as [_|Hc].
  - apply perm_skip. exact IH.
  - pose proof (Nat.mod_upper_bound i lanes). lia.
Qed.

Lemma sum_ext {B} (g1 g2 : B -> Z) (l : list B) :
  (forall x, g1 x = g2 x) ->
  fold_right (fun x s => g1 x + s) 0 l = fold_right (fun x s => g2 x + s) 0 l.
Proof. intros H; induction l as [|x l IH]; simpl; auto. rewrite H, IH. reflexivity. Qed.

Lemma simd_sum_spec (f : Pixel -> Z) (row : list Pixel) (s p lanes : nat) :
  (1 <= lanes)%nat ->
  simd_sum f row s p lanes = ch_sum f (map (fun j => nth j row zero_px) (seq s (p - s))).
Proof.
  intros Hl. unfold simd_sum, ch_sum. rewrite iadd_fold0.
  rewrite (sum_ext _ (fun k => int_wrap (fold_right (fun i s => f (nth i row zero_px) + s) 0
                                 (filter (fun i => Nat.eqb (i mod lanes) k) (seq s (p - s)))))).
  2:{ intros k. unfold lane_sum. apply iadd_fold0. }
  rewrite int_wrap_sum_inner, <- sum_flat_map.
  rewrite (sum_perm _ _ _ (lanes_partition lanes (seq s (p - s)) Hl)).
  rewrite sum_map. reflexivity.
Qed.

Lemma bleed_tc_bleed (lanes : nat) (row : list Pixel) (p : nat) :
  (1 <= lanes)%nat -> bleed_tc lanes row p = bleed row p.
Proof.
  intros Hl. unfold bleed_tc, bleed.
  destruct (Nat.eqb_spec p 0) as [|Hp]; [reflexivity|].
  rewrite window_sum_spec, !simd_sum_spec by exact Hl.
  replace (Z.ltb 0 (if Nat.ltb 10 p then 10 else Z.of_nat p)) with true
    by (destruct (Nat.ltb_spec 10 p); symmetry; apply Z.ltb_lt; lia).
  reflexivity.
Qed.

Lemma transform_tc_transform (lanes : nat) (row : list Pixel) (p : nat) :
  (1 <= lanes)%nat -> transform_tc lanes row p = transform row p.
Proof. intros Hl. unfold transform_tc, transform. rewrite bleed_tc_bleed by exact Hl. reflexivity. Qed.

(** *** Atomic increments commute *)

Lemma set_nth_comm {A} (i j : nat) (l : list A) (x y : A) :
  i <> j -> set_nth i (set_nth j l x) y = set_nth j (set_nth i l y) x.
Proof.
  revert i j; induction l as [|h t IH]; intros [|i] [|j] H; simpl; auto; try lia.
  f_equal. apply IH. lia.
Qed.

Lemma incr_comm (c : list Z) (i j : nat) : incr (incr c i) j = incr (incr c j) i.
Proof.
  destruct (Nat.eq_dec i j) as [->|Hij]; [reflexivity|].
  unfold incr. rewrite !nth_set_nth_neq by auto. apply set_nth_comm. auto.
Qed.

Lemma search_iter_comm (search : list Pixel) (v w : Pixel) (c : list Z) (i j : nat) :
  search_iter search w (search_iter search v c i) j =
  search_iter search v (search_iter search w c j) i.
Proof.
  unfold search_iter.
  destruct (px_eqb v (nth i search zero_px)), (px_eqb w (nth j search zero_px));
    auto using incr_comm.
Qed.

Lemma fold_left_perm_comm {A B} (f : A -> B -> A) (l1 l2 : list B) (a : A) :
  (forall c x y, f (f c x) y = f (f c y) x) ->
  Permutation l1 l2 -> fold_left f l1 a = fold_left f l2 a.
Proof.
  intros Hc HP. revert a. induction HP; intros a; simpl; auto.
  - rewrite Hc. reflexivity.
  - rewrite IHHP1. apply IHHP2.
Qed.

(** A search phase whose threads all compare the same value [v] runs the
    sequential search loop on [v], whatever the schedule. *)
Lemma par_search_uniform (search : list Pixel) (scal : nat -> Pixel) (v : Pixel)
  (w : list (nat * nat)) (c : list Z) :
  (forall t i, In (t, i) w -> scal t = v) ->
  Permutation (map snd w) (seq 0 (List.length search)) ->
  par_search search scal w c = search_pass search v c.
Proof.
  intros Hs HP. unfold search_pass.
  rewrite <- (fold_left_perm_comm _ _ _ c (fun c x y => search_iter_comm search v v c x y) HP).
  unfold par_search. clear HP. revert c.
  induction w as [|[t i] w IH]; intros c; simpl; auto.
  rewrite (Hs t i) by (left; auto). apply IH. intros; eapply Hs; right; eauto.
Qed.

(** The phased executor equals the reference on every execution in which
    each search iteration runs on the thread that executed the preceding
    [single]. *)
Lemma tc2_refines_when_captured (search row : list Pixel) (cnt : list Z) (x : Exec) :
  wf_exec x (List.length search) (List.length row) ->
  (forall p b t i, (p < List.length row)%nat -> In (t, i) (work x p b) ->
     t = (if b then single_post x p else single_pre x p)) ->
  tc2_loop search x row cnt = b_loop search row cnt.
Proof.
  intros [_ [Hl Hwf]] Hown. unfold tc2_loop, b_loop.
  assert (Hgen : forall l st, (forall p, In p l -> (p < List.length row)%nat) ->
            fold_left (tc2_cycle search x) l st = fold_left (b_step search) l st).
  { intros l st Hin. apply fold_left_ext_in. intros [r c] p Hp.
    specialize (Hin p Hp). destruct (Hwf p Hin) as [_ [_ Hb]].
    unfold tc2_cycle, b_step. rewrite transform_tc_transform by exact Hl.
    rewrite (par_search_uniform _ _ (nth p r zero_px) (work x p false)).
    2:{ intros t i Hti. unfold capture. rewrite (Hown p false t i Hin Hti).
        rewrite Nat.eqb_refl. reflexivity. }
    2:{ apply Hb. }
    rewrite (par_search_uniform _ _ (nth p (transform r p) zero_px) (work x p true)).
    2:{ intros t i Hti. unfold capture. rewrite (Hown p true t i Hin Hti).
        rewrite Nat.eqb_refl. reflexivity. }
    2:{ apply Hb. }
    reflexivity. }
  apply Hgen. intros p Hp. apply in_seq in Hp. lia.
Qed.

(** With a team of one thread the phased executor equals the reference. *)
Lemma tc2_one_thread (search row : list Pixel) (cnt : list Z) (x : Exec) :
  wf_exec x (List.length search) (List.length row) -> nthreads x = 1%nat ->
  tc2_loop search x row cnt = b_loop search row cnt.
Proof.
  intros Hwf H1. apply tc2_refines_when_captured; auto.
  intros p b t i Hp Hti. destruct Hwf as [_ [_ Hwf]].
  destruct (Hwf p Hp) as [Hs1 [Hs2 Hb]]. destruct (Hb b) as [_ Ht].
  specialize (Ht t i Hti). destruct b; lia.
Qed.

(** ** Claims about the phased barrier executor *)

Definition twin_search : list Pixel := [mkPixel 5 5 5; mkPixel 5 5 5].
Definition one_px_row : list Pixel := [mkPixel 5 5 5].

(** Two threads, [schedule(static,1)] for both search loops, thread 0
    executes every [single], and thread 1's uninitialised [r0,g0,b0] /
    [r1,g1,b1] hold (0,0,0). *)
Definition exec_2_static : Exec :=
  mkExec 2 (fun _ => 0%nat) (fun _ => 0%nat)
    (fun _ _ => team_order 2 (static_sched 2 1 2)) (fun _ _ _ => zero_px) 1.

Lemma exec_2_static_wf : wf_exec exec_2_static 2 1.
Proof.
  unfold wf_exec; simpl. split; [lia|]. split; [lia|].
  intros p Hp. split; [lia|]. split; [lia|]. intros b. split.
  - vm_compute. apply Permutation_refl.
  - intros t i H. vm_compute in H.
    destruct H as [H|[H|[]]]; inversion H; subst; lia.
Qed.

(** C1 (phased executor vs reference): with two threads the phased
    executor of process-b_tc2.c can end with match counters different from
    the reference's on the one-pixel grid [[(5,5,5)]] with search list
    [[(5,5,5),(5,5,5)]]: the reference counts [[1;1]], the phased executor
    [[1;0]] on the well-formed execution [exec_2_static], because thread 1
    compares its own uninitialised copy of the captured scalars. *)
Theorem tc2_two_threads_diverges :
  wf_exec exec_2_static (List.length twin_search) (List.length one_px_row)
  /\ b_loop twin_search one_px_row (zeros 2) = ([mkPixel 8 8 8], [1; 1])
  /\ tc2_loop twin_search exec_2_static one_px_row (zeros 2) = ([mkPixel 8 8 8], [1; 0]).
Proof.
  split; [exact exec_2_static_wf|].
  split; vm_compute; reflexivity.
Qed.

(** ** Tiled phased executor (process-b_tc4.c lines 57-174) *)

(** [tiles = (search.length + TILE_I - 1) / TILE_I]. *)
Definition tiles (N tile : nat) : nat := ((N + tile - 1) / tile)%nat.

(** Indices [start .. end-1] of tile [tb], [end] clipped to [N]. *)
Definition tile_range (N tile tb : nat) : list nat :=
  let start := (tb * tile)%nat in
  let fin := Nat.min (start + tile) N in
  seq start (fin - start).

(** Thread-local [local[i]++] on the private array of thread [t]. *)
Definition local_iter (search : list Pixel) (v : Pixel) (t : nat)
  (locals : list (list Z)) (i : nat) : list (list Z) :=
  if px_eqb v (nth i search zero_px)
  then set_nth t locals (incr (nth t locals []) i) else locals.

(** The tiled worksharing loop: iteration [(t, tb)] scans tile [tb] with
    thread [t]'s scalars into thread [t]'s local counters. *)
Definition tile_search (search : list Pixel) (tile : nat) (scal : nat -> Pixel)
  (w : list (nat * nat)) (locals : list (list Z)) : list (list Z) :=
  fold_left (fun ls ttb =>
      fold_left (local_iter search (scal (fst ttb)) (fst ttb)) 
        (tile_range (List.length search) tile (snd ttb)) ls)
    w locals.

Definition tc4_cycle (search : list Pixel) (tile : nat) (x : Exec)
  (st : list Pixel * list (list Z)) (p : nat) : list Pixel * list (list Z) :=
  let '(row, locals) := st in
  let s0 := capture x p false (nth p row zero_px) in
  let locals1 := tile_search search tile s0 (work x p false) locals in
  let row2 := transform_tc (simd_lanes x) row p in
  let s1 := capture x p true (nth p row2 zero_px) in
  let locals2 := tile_search search tile s1 (work x p true) locals1 in
  (row2, locals2).

(** [#pragma omp critical { counter[i] += local[i]; }] for one thread. *)
Definition merge_local (cnt local : list Z) : list Z :=
  fold_left (fun c i => set_nth i c (ulong_wrap (nth i c 0 + nth i local 0)))
    (seq 0 (List.length cnt)) cnt.

(** The whole parallel region: [calloc]'ed locals, the column loop, then each
    thread's critical merge in the order [morder] the threads enter it. *)
Definition tc4_run (search : list Pixel) (tile : nat) (x : Exec) (morder : list nat)
  (row : list Pixel) (cnt : list Z) : list Pixel * list Z :=
  let '(row', locals) :=
    fold_left (tc4_cycle search tile x) (seq 0 (List.length row))
      (row, repeat (zeros (List.length search)) (nthreads x)) in
  (row', fold_left (fun c t => merge_local c (nth t locals [])) morder cnt).

(** Every search index lies in exactly one tile. *)
Lemma tiles_cover (N tile : nat) :
  (1 <= tile)%nat ->
  flat_map (tile_range N tile) (seq 0 (tiles N tile)) = seq 0 N.
Proof.
  intros Ht. unfold tiles.
  set (q := ((N + tile - 1) / tile)%nat).
  assert (Hq : (tile * q <= N + tile - 1 < tile * q + tile)%nat).
  { pose proof (Nat.div_mod (N + tile - 1) tile) as Hd.
    pose proof (Nat.mod_upper_bound (N + tile - 1) tile) as Hm. unfold q. lia. }
  assert (Hk : forall k, (k <= q)%nat ->
            flat_map (tile_range N tile) (seq 0 k) = seq 0 (Nat.min N (k * tile))).
  { induction k as [|k IH]; intros Hk.
    { simpl. rewrite Nat.min_0_r. reflexivity. }
    rewrite seq_S, flat_map_app, IH by lia. simpl. rewrite app_nil_r.
    unfold tile_range.
    assert (Hkt : (k * tile < N)%nat) by nia.
    replace (Nat.min N (k * tile)) with (k * tile)%nat by lia.
    rewrite <- seq_app. f_equal. lia. }
  rewrite Hk by lia. f_equal. nia.
Qed.

(** Two threads, [schedule(static,1)] over the tiles, thread 0 executes
    every [single], thread 1's uninitialised scalars hold (0,0,0). *)
Definition exec_tc4 (tile : nat) : Exec :=
  mkExec 2 (fun _ => 0%nat) (fun _ => 0%nat)
    (fun _ _ => team_order 2 (static_sched 2 1 (tiles 2 tile))) (fun _ _ _ => zero_px) 1.

Lemma exec_tc4_wf (tile : nat) :
  (tile = 1 \/ tile = 2)%nat -> wf_exec (exec_tc4 tile) (tiles 2 tile) 1.
Proof.
  intros [-> | ->]; unfold wf_exec; simpl; (split; [lia|]); (split; [lia|]);
    intros p Hp; (split; [lia|]); (split; [lia|]); intros b; split;
    try (vm_compute; apply Permutation_refl);
    intros t i H; vm_compute in H;
    repeat (destruct H as [H|H]; [inversion H; subst; lia|]); destruct H.
Qed.

(** C5 (tile-size invariance): on the grid [[(5,5,5)]] with search list
    [[(5,5,5),(5,5,5)]], two threads under [schedule(static,1)] over tiles
    and thread 0 executing every [single], the tiled executor ends with
    counters [[1;0]] for [TILE_I = 1] but [[1;1]] (the reference's) for
    [TILE_I = 2]: thread 1 scans its tile with its own uninitialised copy of
    the captured scalars. The tiles themselves cover each index once
    ([tiles_cover]). *)
Theorem tc4_tile_size_changes_counters :
  wf_exec (exec_tc4 1) (tiles (List.length twin_search) 1) (List.length one_px_row)
  /\ wf_exec (exec_tc4 2) (tiles (List.length twin_search) 2) (List.length one_px_row)
  /\ snd (tc4_run twin_search 1 (exec_tc4 1) [0; 1]%nat one_px_row (zeros 2)) = [1; 0]
  /\ snd (tc4_run twin_search 2 (exec_tc4 2) [0; 1]%nat one_px_row (zeros 2)) = [1; 1]
  /\ snd (b_loop twin_search one_px_row (zeros 2)) = [1; 1].
Proof.
  split; [apply exec_tc4_wf; auto|].
  split; [apply exec_tc4_wf; auto|].
  repeat split; vm_compute; reflexivity.
Qed.

(** ** Row-parallel executors (process-a_tc2.c, process-a_tc3.c) *)

(** Row width used by the row-parallel variants: [LoadFile(..., 1000)]. *)
Definition a_linesize : nat := 1000.

(** Bleed of process-a_tc2.c lines 64-83: as [bleed], with the division and
    update under [if (pixlen > 0)]. *)
Definition bleed_a (row : list Pixel) (p : nat) : list Pixel :=
  if Nat.eqb p 0 then row else
  let pixlen : Z := if Nat.ltb 10 p then 10 else Z.of_nat p in
  if Z.ltb 0 pixlen then bleed row p else row.

(** Body of the [p] loop of row [l]: search, bleed, greyscale, XOR, search,
    incrementing the counter array [cnt] (thread-local in process-a_tc2.c,
    shared with [omp atomic] in process-a_tc3.c). *)
Definition a_step (search : list Pixel) (st : list Pixel * list Z) (p : nat)
  : list Pixel * list Z :=
  let '(row, cnt) := st in
  let cnt1 := search_pass search (nth p row zero_px) cnt in
  let row1 := bleed_a row p in
  let row2 := set_nth p row1 (XOR (Greyscale (nth p row1 zero_px)) 13) in
  let cnt2 := search_pass search (nth p row2 zero_px) cnt1 in
  (row2, cnt2).

(** [for (p = 0; p < img.linesize; ++p)] on one row. *)
Definition a_row_body (search : list Pixel) (linesize : nat) (row : list Pixel)
  (cnt : list Z) : list Pixel * list Z :=
  fold_left (a_step search) (seq 0 linesize) (row, cnt).

(** process-a_tc3.c: the rows [(thread, l)] of the worksharing row loop, in
    the order their bodies run, on the shared counters. Rows are disjoint and
    atomic increments commute, so running each row body as a unit is one of
    the executions of the team. *)
Definition a3_run (search : list Pixel) (linesize : nat) (w : list (nat * nat))
  (img : list (list Pixel)) (cnt : list Z) : list (list Pixel) * list Z :=
  fold_left (fun st tl =>
      let '(img, cnt) := st in
      let '(row', cnt') := a_row_body search linesize (nth (snd tl) img []) cnt in
      (set_nth (snd tl) img row', cnt'))
    w (img, cnt).

(** process-a_tc2.c lines 41-100: each of the [T] threads [calloc]s its
    local counters, and its rows update them. *)
Definition a2_rows (search : list Pixel) (linesize T : nat) (w : list (nat * nat))
  (img : list (list Pixel)) : list (list Pixel) * list (list Z) :=
  fold_left (fun st tl =>
      let '(img, locals) := st in
      let '(row', loc') :=
        a_row_body search linesize (nth (snd tl) img []) (nth (fst tl) locals []) in
      (set_nth (snd tl) img row', set_nth (fst tl) locals loc'))
    w (img, repeat (zeros (List.length search)) T).

(** process-a_tc2.c lines 102-107: [#pragma omp for schedule(static)] over
    [i]; iteration [i] runs on thread [mown i], which adds its own
    [local[i]] into [counter[i]] with [omp atomic]. *)
Definition a2_merge (mown : nat -> nat) (locals : list (list Z)) (cnt : list Z) : list Z :=
  fold_left (fun c i => set_nth i c (ulong_wrap (nth i c 0 + nth i (nth (mown i) locals []) 0)))
    (seq 0 (List.length cnt)) cnt.

Definition a2_run (search : list Pixel) (linesize T : nat) (w : list (nat * nat))
  (mown : nat -> nat) (img : list (list Pixel)) (cnt : list Z)
  : list (list Pixel) * list Z :=
  let '(img', locals) := a2_rows search linesize T w img in
  (img', a2_merge mown locals cnt).

Definition zero_grid_2rows : list (list Pixel) :=
  [repeat zero_px a_linesize; repeat zero_px a_linesize].
Definition zero_search : list Pixel := [zero_px].


Lemma a2_rows_zero_grid :
  snd (a2_rows zero_search a_linesize 2 [(0, 0); (1, 1)]%nat zero_grid_2rows)
  = [[1000]; [1000]].
Proof. vm_compute. reflexivity. Qed.

(** C4 (atomic vs thread-local merge): on the two-row grid of zero pixels
    with search list [[(0,0,0)]] and two threads owning one row each, the
    atomic variant (process-a_tc3.c) counts 2000, while the thread-local
    variant (process-a_tc2.c) ends with a count different from 2000 whatever
    thread runs iteration [i = 0] of its worksharing merge loop: that
    thread adds only its own local array. *)
Theorem a2_merge_loses_counts :
  snd (a3_run zero_search a_linesize [(0, 0); (1, 1)]%nat zero_grid_2rows [0]) = [2000]
  /\ forall mown : nat -> nat,
     snd (a2_run zero_search a_linesize 2 [(0, 0); (1, 1)]%nat mown zero_grid_2rows [0])
     <> [2000].
Proof.
  split; [vm_compute; reflexivity|].
  intros mown. unfold a2_run.
  destruct (a2_rows zero_search a_linesize 2 [(0, 0); (1, 1)]%nat zero_grid_2rows)
    as [img' locals] eqn:E.
  pose proof a2_rows_zero_grid as H. rewrite E in H. cbn [snd] in H. subst locals.
  change (a2_merge mown [[1000]; [1000]] [0])
    with [ulong_wrap (0 + nth 0 (nth (mown 0%nat) [[1000]; [1000]] []) 0)].
  assert (Hm : nth (mown 0%nat) [[1000]; [1000]] [] = [1000]
               \/ nth (mown 0%nat) [[1000]; [1000]] [] = []).
  { destruct (mown 0%nat) as [|[|k]]; [left|left|right; destruct k]; reflexivity. }
  cbn [snd]. destruct Hm as [-> | ->]; vm_compute; discriminate.
Qed.

(** *** Row independence *)

(** Instrumented copy of [a2_rows] that also records, for each row body
    run, the row index and the change it made to its thread's local
    counters ([local_after - local_before] in [unsigned long]). *)
Definition vdiff (after before : list Z) : list Z :=
  map (fun i => ulong_wrap (nth i after 0 - nth i before 0)) (seq 0 (List.length after)).

Definition a2_rows_obs (search : list Pixel) (linesize T : nat) (w : list (nat * nat))
  (img : list (list Pixel))
  : list (list Pixel) * list (list Z) * list (nat * list Z) :=
  fold_left (fun st tl =>
      let '(img, locals, tr) := st in
      let loc := nth (fst tl) locals [] in
      let '(row', loc') := a_row_body search linesize (nth (snd tl) img []) loc in
      (set_nth (snd tl) img row', set_nth (fst tl) locals loc',
       tr ++ [(snd tl, vdiff loc' loc)]))
    w (img, repeat (zeros (List.length search)) T, []).

(** The change a row body makes to counters of length [N], started from
    zero. *)
Definition row_delta (search : list Pixel) (linesize : nat) (row : list Pixel) (N : nat)
  : list Z :=
  vdiff (snd (a_row_body search linesize row (zeros N))) (zeros N).

Definition search_hits (search : list Pixel) (v : Pixel) : list nat :=
  filter (fun i => px_eqb v (nth i search zero_px)) (seq 0 (List.length search)).

Lemma fold_cond_incr (f : nat -> bool) (l : list nat) (c : list Z) :
  fold_left (fun c i => if f i then incr c i else c) l c = fold_left incr (filter f l) c.
Proof.
  revert c; induction l as [|i l IH]; intros c; simpl; auto.
  destruct (f i); simpl; apply IH.
Qed.

Lemma search_pass_hits (search : list Pixel) (v : Pixel) (c : list Z) :
  search_pass search v c = fold_left incr (search_hits search v) c.
Proof. unfold search_pass, search_iter, search_hits. apply fold_cond_incr. Qed.

(** A row body's row result does not depend on the counters, and its
    counter result is a fixed sequence of increments. *)
Lemma a_fold_decomp (search : list Pixel) (l : list nat) (row : list Pixel) :
  exists (H : list nat) (rowf : list Pixel),
    forall c, fold_left (a_step search) l (row, c) = (rowf, fold_left incr H c).
Proof.
  revert row; induction l as [|p l IH]; intros row.
  - exists [], row. reflexivity.
  - simpl. set (row2 := set_nth p (bleed_a row p) (XOR (Greyscale (nth p (bleed_a row p) zero_px)) 13)).
    destruct (IH row2) as [H' [rowf Hf]].
    exists (search_hits search (nth p row zero_px) ++ search_hits search (nth p row2 zero_px) ++ H'),
           rowf.
    intros c. rewrite !search_pass_hits, Hf, !fold_left_app. reflexivity.
Qed.

Lemma incr_length (c : list Z) (i : nat) : List.length (incr c i) = List.length c.
Proof. apply set_nth_length. Qed.

Lemma fold_incr_length (H : list nat) (c : list Z) :
  List.length (fold_left incr H c) = List.length c.
Proof.
  revert c; induction H as [|j H IH]; intros c; simpl; auto.
  rewrite IH. apply incr_length.
Qed.

Lemma fold_incr_delta (H : list nat) (c : list Z) (i : nat) :
  (i < List.length c)%nat ->
  ulong_wrap (nth i (fold_left incr H c) 0 - nth i c 0) =
  Z.of_nat (count_occ Nat.eq_dec H i) mod 2 ^ 64.
Proof.
  unfold ulong_wrap. revert c; induction H as [|j H IH]; intros c Hi; cbn [fold_left count_occ].
  - rewrite Z.sub_diag. reflexivity.
  - specialize (IH (incr c j) ltac:(rewrite incr_length; exact Hi)).
    replace (nth i (fold_left incr H (incr c j)) 0 - nth i c 0)
      with ((nth i (fold_left incr H (incr c j)) 0 - nth i (incr c j) 0)
            + (nth i (incr c j) 0 - nth i c 0)) by lia.
    rewrite Z.add_mod, IH by lia. unfold incr.
    destruct (Nat.eq_dec j i) as [->|Hji].
    + rewrite nth_set_nth_eq by exact Hi. unfold ulong_wrap.
      rewrite Zminus_mod_idemp_l.
      replace (nth i c 0 + 1 - nth i c 0) with 1 by lia.
      rewrite <- Z.add_mod by lia. f_equal. lia.
    + rewrite nth_set_nth_neq by auto. rewrite Z.sub_diag, Z.mod_0_l, Z.add_0_r by lia.
      apply Z.mod_mod. lia.
Qed.

Lemma vdiff_fold_incr (H : list nat) (c1 c2 : list Z) :
  List.length c1 = List.length c2 ->
  vdiff (fold_left incr H c1) c1 = vdiff (fold_left incr H c2) c2.
Proof.
  intros Hl. unfold vdiff. rewrite !fold_incr_length, Hl.
  apply map_ext_in. intros i Hi. apply in_seq in Hi.
  rewrite !fold_incr_delta by lia. reflexivity.
Qed.

Lemma a_row_body_row (search : list Pixel) (ls : nat) (row : list Pixel) (c1 c2 : list Z) :
  fst (a_row_body search ls row c1) = fst (a_row_body search ls row c2).
Proof.
  unfold a_row_body. destruct (a_fold_decomp search (seq 0 ls) row) as [H [rowf Hf]].
  rewrite !Hf. reflexivity.
Qed.

Lemma a_row_body_delta (search : list Pixel) (ls : nat) (row : list Pixel) (c : list Z) :
  vdiff (snd (a_row_body search ls row c)) c = row_delta search ls row (List.length c).
Proof.
  unfold row_delta, a_row_body. destruct (a_fold_decomp search (seq 0 ls) row) as [H [rowf Hf]].
  rewrite !Hf. apply vdiff_fold_incr. unfold zeros. rewrite repeat_length. reflexivity.
Qed.

Lemma a_row_body_cnt_length (search : list Pixel) (ls : nat) (row : list Pixel) (c : list Z) :
  List.length (snd (a_row_body search ls row c)) = List.length c.
Proof.
  unfold a_row_body. destruct (a_fold_decomp search (seq 0 ls) row) as [H [rowf Hf]].
  rewrite Hf. apply fold_incr_length.
Qed.

Definition a2_rows_step (search : list Pixel) (linesize : nat)
  (st : list (list Pixel) * list (list Z)) (tl : nat * nat)
  : list (list Pixel) * list (list Z) :=
  let '(img, locals) := st in
  let '(row', loc') :=
    a_row_body search linesize (nth (snd tl) img []) (nth (fst tl) locals []) in
  (set_nth (snd tl) img row', set_nth (fst tl) locals loc').

Lemma a2_rows_fold (search : list Pixel) (ls T : nat) (w : list (nat * nat))
  (img : list (list Pixel)) :
  a2_rows search ls T w img =
  fold_left (a2_rows_step search ls) w (img, repeat (zeros (List.length search)) T).
Proof. reflexivity. Qed.

Lemma a2_rows_obs_agree (search : list Pixel) (ls : nat) (w : list (nat * nat)) :
  forall img locals tr,
  fst (fold_left (fun st tl =>
      let '(img, locals, tr) := st in
      let loc := nth (fst tl) locals [] in
      let '(row', loc') := a_row_body search ls (nth (snd tl) img []) loc in
      (set_nth (snd tl) img row', set_nth (fst tl) locals loc',
       tr ++ [(snd tl, vdiff loc' loc)])) w (img, locals, tr))
  = fold_left (a2_rows_step search ls) w (img, locals).
Proof.
  induction w as [|[t l] w IH]; intros img locals tr; simpl; auto.
  destruct (a_row_body search ls (nth l img []) (nth t locals [])) as [row' loc'].
  apply IH.
Qed.

Lemma a2_rows_frame (search : list Pixel) (ls : nat) (w : list (nat * nat)) (r : nat) :
  forall img locals, ~ In r (map snd w) ->
  nth r (fst (fold_left (a2_rows_step search ls) w (img, locals))) [] = nth r img [].
Proof.
  induction w as [|[t l] w IH]; intros img locals Hr; simpl in *; auto.
  destruct (a_row_body search ls (nth l img []) (nth t locals [])) as [row' loc'].
  rewrite IH by tauto. apply nth_set_nth_neq. intro; apply Hr; left; auto.
Qed.

Lemma a2_rows_final (search : list Pixel) (ls : nat) (w : list (nat * nat)) (r : nat) :
  forall img locals, NoDup (map snd w) -> In r (map snd w) -> (r < List.length img)%nat ->
  nth r (fst (fold_left (a2_rows_step search ls) w (img, locals))) [] =
  fst (a_row_body search ls (nth r img []) []).
Proof.
  induction w as [|[t l] w IH]; intros img locals Hnd Hin Hr; simpl in *; [tauto|].
  inversion Hnd as [|? ? Hl Hnd']; subst.
  pose proof (a_row_body_row search ls (nth l img []) (nth t locals []) []) as Hrow.
  destruct (a_row_body search ls (nth l img []) (nth t locals [])) as [row' loc'].
  simpl in Hrow. destruct (Nat.eq_dec l r) as [->|Hlr].
  - rewrite a2_rows_frame by exact Hl. rewrite nth_set_nth_eq by exact Hr. exact Hrow.
  - destruct Hin as [Hin|Hin]; [congruence|].
    rewrite IH by (auto; rewrite set_nth_length; exact Hr).
    rewrite nth_set_nth_neq by auto. reflexivity.
Qed.

Lemma in_set_nth {A} (n : nat) (l : list A) (x c : A) :
  In c (set_nth n l x) -> c = x \/ In c l.
Proof.
  revert n; induction l as [|h t IH]; intros [|n] H; simpl in *; auto.
  - destruct H; auto.
  - destruct H as [H|H]; auto. destruct (IH n H); auto.
Qed.

Lemma a2_rows_obs_trace (search : list Pixel) (ls N : nat) (img0 : list (list Pixel))
  (w : list (nat * nat)) :
  forall img locals tr,
  NoDup (map snd w) ->
  (forall t l, In (t, l) w -> (t < List.length locals)%nat) ->
  (forall c, In c locals -> List.length c = N) ->
  (forall r d, In (r, d) tr -> d = row_delta search ls (nth r img0 []) N) ->
  (forall r, In r (map snd w) -> nth r img [] = nth r img0 []) ->
  forall r d,
  In (r, d) (snd (fold_left (fun st tl =>
      let '(img, locals, tr) := st in
      let loc := nth (fst tl) locals [] in
      let '(row', loc') := a_row_body search ls (nth (snd tl) img []) loc in
      (set_nth (snd tl) img row', set_nth (fst tl) locals loc',
       tr ++ [(snd tl, vdiff loc' loc)])) w (img, locals, tr))) ->
  d = row_delta search ls (nth r img0 []) N.
Proof.
  induction w as [|[t l] w IH]; intros img locals tr Hnd Ht Hc Htr Himg r d Hrd;
    simpl in *; [eapply Htr; eauto|].
  inversion Hnd as [|? ? Hl Hnd']; subst.
  pose proof (a_row_body_delta search ls (nth l img []) (nth t locals [])) as Hd.
  pose proof (a_row_body_cnt_length search ls (nth l img []) (nth t locals [])) as Hlen.
  assert (HtN : List.length (nth t locals []) = N).
  { apply Hc. apply nth_In. eapply Ht. left; reflexivity. }
  destruct (a_row_body search ls (nth l img []) (nth t locals [])) as [row' loc'].
  simpl in Hd, Hlen.
  eapply (IH _ _ _ Hnd'); [| | | |exact Hrd].
  - intros t' l' H'. rewrite set_nth_length. eapply Ht. right; exact H'.
  - intros c Hin. apply in_set_nth in Hin. destruct Hin as [->|Hin]; [lia|auto].
  - intros r' d' Hin. apply in_app_or in Hin. destruct Hin as [Hin|[Hin|[]]]; [eauto|].
    injection Hin as <- <-. rewrite Hd, HtN, Himg by (left; reflexivity). reflexivity.
  - intros r' Hr'. rewrite nth_set_nth_neq by (intro; subst; contradiction).
    apply Himg. right; exact Hr'.
Qed.

(** C6 (row independence): in the row loop of process-a_tc2.c, take two
    runs on grids that agree on row [r] (and the same search list), each
    assigning every row at most once, in any order, to any of the [T]
    threads. Both runs end with the same row [r]. Both also record the same
    change to the owning thread's local counters while processing row [r]:
    that change does not depend on the other rows, on the order, or on the
    thread. *)
Theorem row_independence (search : list Pixel) (ls T : nat)
  (w1 w2 : list (nat * nat)) (img1 img2 : list (list Pixel)) (r : nat) :
  NoDup (map snd w1) -> NoDup (map snd w2) ->
  In r (map snd w1) -> In r (map snd w2) ->
  (forall t l, In (t, l) w1 -> (t < T)%nat) ->
  (forall t l, In (t, l) w2 -> (t < T)%nat) ->
  (r < List.length img1)%nat -> (r < List.length img2)%nat ->
  nth r img1 [] = nth r img2 [] ->
  nth r (fst (a2_rows search ls T w1 img1)) [] = nth r (fst (a2_rows search ls T w2 img2)) []
  /\ (forall d1 d2,
      In (r, d1) (snd (a2_rows_obs search ls T w1 img1)) ->
      In (r, d2) (snd (a2_rows_obs search ls T w2 img2)) -> d1 = d2).
Proof.
  intros Hnd1 Hnd2 Hin1 Hin2 Ht1 Ht2 Hr1 Hr2 Hrow. split.
  - rewrite !a2_rows_fold, !a2_rows_final by assumption. rewrite Hrow. reflexivity.
  - intros d1 d2 H1 H2.
    assert (Hinv : forall (w : list (nat * nat)) img d,
              NoDup (map snd w) -> (forall t l, In (t, l) w -> (t < T)%nat) ->
              In (r, d) (snd (a2_rows_obs search ls T w img)) ->
              d = row_delta search ls (nth r img []) (List.length search)).
    { intros w img d Hnd Ht Hd. unfold a2_rows_obs in Hd.
      eapply (a2_rows_obs_trace search ls (List.length search) img w); [exact Hnd| | | | |exact Hd].
      - intros t l H. rewrite repeat_length. eapply Ht; eauto.
      - intros c Hc. apply repeat_spec in Hc. subst c. apply repeat_length.
      - intros r' d' [].
      - reflexivity. }
    rewrite (Hinv w1 img1 d1), (Hinv w2 img2 d2) by assumption.
    rewrite Hrow. reflexivity.
Qed.

Definition grid_a : list (list Pixel) := [[zero_px; zero_px]; [zero_px; zero_px]].
Definition grid_b : list (list Pixel) := [[zero_px; zero_px]; [mkPixel 1 2 3; mkPixel 4 5 6]].

Lemma row_independence_witness :
  (NoDup (map snd [(0, 0); (0, 1)]%nat) /\ NoDup (map snd [(1, 1); (0, 0)]%nat))
  /\ (nth 0 (fst (a2_rows zero_search 2 2 [(0, 0); (0, 1)]%nat grid_a)) []
      = nth 0 (fst (a2_rows zero_search 2 2 [(1, 1); (0, 0)]%nat grid_b)) []
  /\ (forall d1 d2,
      In (0%nat, d1) (snd (a2_rows_obs zero_search 2 2 [(0, 0); (0, 1)]%nat grid_a)) ->
      In (0%nat, d2) (snd (a2_rows_obs zero_search 2 2 [(1, 1); (0, 0)]%nat grid_b)) ->
      d1 = d2)).
Proof.
  assert (N1 : NoDup (map snd [(0, 0); (0, 1)]%nat))
    by (simpl; constructor; [simpl; intuition lia | constructor; [simpl; auto | constructor]]).
  assert (N2 : NoDup (map snd [(1, 1); (0, 0)]%nat))
    by (simpl; constructor; [simpl; intuition lia | constructor; [simpl; auto | constructor]]).
  split; [split; assumption|].
  apply (row_independence zero_search 2 2 _ _ grid_a grid_b 0); try assumption.
  - simpl; auto.
  - simpl; auto.
  - intros t l H; simpl in H.
    destruct H as [H|[H|[]]]; injection H as <- <-; lia.
  - intros t l H; simpl in H.
    destruct H as [H|[H|[]]]; injection H as <- <-; lia.
  - simpl; lia.
  - simpl; lia.
  - reflexivity.
Defined.

(** ** Reference claims: witness for C2 *)

Lemma bleed_window_reference_witness :
  (1 < List.length scen_row)%nat /\
  (nth 1 (bleed (fst (fold_left (b_step scen_search) (seq 0 1) (scen_row, zeros 1))) 1) zero_px =
    (if Nat.eqb 1 0 then nth 1 scen_row zero_px
     else bleed_px_spec (window (fst (b_loop scen_search scen_row (zeros 1))) 1 (Nat.min 10 1))
                        (nth 1 scen_row zero_px))
  /\ (forall j, j <> 1%nat ->
      nth j (bleed (fst (fold_left (b_step scen_search) (seq 0 1) (scen_row, zeros 1))) 1) zero_px =
      nth j (fst (fold_left (b_step scen_search) (seq 0 1) (scen_row, zeros 1))) zero_px)).
Proof.
  split; [simpl; lia|].
  apply (bleed_window_reference scen_search scen_row (zeros 1) 1). simpl; lia.
Defined.

(** ** Start-up of [main]: argument check, loading, counter allocation *)

(** Observable steps of the start-up of [main]. *)
Inductive Event :=
| EFatal (msg : string)             (** [FatalError]: message on stderr, [exit(1)] *)
| EOpenRead (name : option string)  (** [fopen(name, "rb")]; [None] is a NULL name *)
| EUndefined                        (** undefined behaviour, e.g. [fopen(NULL, ...)] *)
| EStore (i : nat)                  (** [counter[i] = 0] into allocated memory *)
| EStoreNull (i : nat).             (** [counter[i] = 0] through a NULL pointer *)

(** [av[k]]: [argv[argc]] is NULL. *)
Definition arg (argv : list string) (k : nat) : option string := nth_error argv k.

(** [LoadFile]'s [fopen], then the continuation [k] when the file opened. *)
Definition load_file (fs : string -> bool) (name : option string) (k : list Event)
  : list Event :=
  EOpenRead name ::
  match name with
  | None => [EUndefined]
  | Some n => if fs n then k else [EFatal "Cannot open file for reading"]
  end.

(** [malloc] of the counter array (succeeding or returning NULL) and its
    zero-initialisation loop, in process-b.c (no NULL check). *)
Definition b_counter_init (malloc_ok : bool) (n : nat) : list Event :=
  map (fun i => if malloc_ok then EStore i else EStoreNull i) (seq 0 n).

(** process-b.c lines 16-41 up to the end of loading. *)
Definition b_startup (fs : string -> bool) (argv : list string) (search_len : nat)
  (malloc_ok : bool) : list Event :=
  if Nat.ltb (List.length argv) 3
  then [EFatal "Usage: create in_filename out_filename search_filename"]
  else load_file fs (arg argv 1)
         (load_file fs (arg argv 3) (b_counter_init malloc_ok search_len)).

(** The same start-up in process-b_tc3.c lines 24-49 ([ac < 4], NULL check). *)
Definition tc3_startup (fs : string -> bool) (argv : list string) (search_len : nat)
  (malloc_ok : bool) : list Event :=
  if Nat.ltb (List.length argv) 4
  then [EFatal "Usage: create in_filename out_filename search_filename"]
  else load_file fs (arg argv 1)
         (load_file fs (arg argv 3)
            (if malloc_ok then map EStore (seq 0 search_len)
             else [EFatal "malloc failed for counter"])).

Definition fs_all : string -> bool := fun _ => true.

(** Fewer than two user arguments are rejected by process-b.c. *)
Lemma b_startup_rejects_short (fs : string -> bool) (argv : list string) (n : nat) (ok : bool) :
  (List.length argv < 3)%nat ->
  b_startup fs argv n ok = [EFatal "Usage: create in_filename out_filename search_filename"].
Proof.
  intros H. unfold b_startup.
  destruct (Nat.ltb_spec (List.length argv) 3); [reflexivity|lia].
Qed.

(** C7 (argument check): invoked with two user arguments ([ac = 3]),
    process-b.c passes its [ac < 3] check, opens the input file and then
    calls [fopen] on [av[3] = NULL]; the sibling process-b_tc3.c rejects the
    same invocation through [FatalError]. *)
Theorem b_startup_two_args :
  b_startup fs_all ["b_seq"; "in.raw"; "out.raw"]%string 1 true
  = [EOpenRead (Some "in.raw"%string); EOpenRead None; EUndefined]
  /\ tc3_startup fs_all ["b_seq"; "in.raw"; "out.raw"]%string 1 true
  = [EFatal "Usage: create in_filename out_filename search_filename"].
Proof. split; reflexivity. Qed.

(** C8 (counter allocation failure): when [malloc] of the counter array
    returns NULL, process-b.c goes on to store [counter[0] = 0] through the
    NULL pointer without any diagnostic; process-b_tc3.c stops with
    [FatalError("malloc failed for counter")]. *)
Theorem b_startup_malloc_null :
  b_startup fs_all ["b_seq"; "in.raw"; "out.raw"; "search.raw"]%string 1 false
  = [EOpenRead (Some "in.raw"%string); EOpenRead (Some "search.raw"%string); EStoreNull 0]
  /\ tc3_startup fs_all ["b_seq"; "in.raw"; "out.raw"; "search.raw"]%string 1 false
  = [EOpenRead (Some "in.raw"%string); EOpenRead (Some "search.raw"%string);
     EFatal "malloc failed for counter"].
Proof. split; reflexivity. Qed.

(** ** The transform pass of process-b.c on the program state *)

(** The state [main] holds after loading: the image, the search image and
    the counter array. *)
Record BState := mkBState { img : Img.t; search_img : Img.t; counter : list Z }.

(** process-b.c lines 265-324: [for (p = 0; p < img.linesize; ++p)] on
    [img.pixels[0]], reading [search.pixels[0]]. *)
Definition b_transform_pass (st : BState) : BState :=
  let im := img st in
  let '(row', cnt') :=
    fold_left (b_step (nth 0 (Img.pixels (search_img st)) []))
      (seq 0 (Img.linesize im)) (nth 0 (Img.pixels im) [], counter st) in
  mkBState (Img.mk (Img.length im) (Img.lines im) (Img.linesize im)
                   (set_nth 0 (Img.pixels im) row'))
           (search_img st) cnt'.

(** C9 (frame of the transform pass): the pass changes neither the shape
    fields [length], [lines], [linesize] of the image, nor its number of
    lines or the length of any line, and leaves the search image
    untouched. *)
Theorem b_transform_pass_frame (st : BState) :
  Img.length (img (b_transform_pass st)) = Img.length (img st)
  /\ Img.lines (img (b_transform_pass st)) = Img.lines (img st)
  /\ Img.linesize (img (b_transform_pass st)) = Img.linesize (img st)
  /\ List.length (Img.pixels (img (b_transform_pass st))) = List.length (Img.pixels (img st))
  /\ (forall l, List.length (nth l (Img.pixels (img (b_transform_pass st))) [])
                = List.length (nth l (Img.pixels (img st)) []))
  /\ search_img (b_transform_pass st) = search_img st.
Proof.
  destruct st as [[len lns lsz pix] simg cnt]. unfold b_transform_pass.
  cbn [img search_img counter Img.length Img.lines Img.linesize Img.pixels].
  pose proof (b_prefix_length (nth 0 (Img.pixels simg) []) (nth 0 pix []) cnt (seq 0 lsz)) as Hl.
  destruct (fold_left _ _ _) as [row' cnt'] eqn:E. simpl in Hl.
  cbn [img search_img counter Img.length Img.lines Img.linesize Img.pixels].
  split; [reflexivity|]. split; [reflexivity|]. split; [reflexivity|].
  split; [apply set_nth_length|]. split; [|reflexivity].
  intros l. destruct (Nat.eq_dec l 0) as [->|Hl0].
  - destruct pix as [|r0 pix]; simpl in *; auto.
  - rewrite nth_set_nth_neq by exact Hl0. reflexivity.
Qed.

(** ** Loading ([ImageData], [LoadFile] of rawimage.h) *)

(** Shape computed by [ImageData]: [(lines, length, linesize)]. *)
Definition ImageData (length linesize : nat) : nat * nat * nat :=
  if Nat.eqb linesize 0 then (1%nat, length, length) else
  let tlines := (length / linesize)%nat in
  let remainder := (length - tlines * linesize)%nat in
  if Nat.ltb 0 remainder
  then (S tlines, (length + (linesize - remainder))%nat, linesize)
  else (tlines, length, linesize).

(** [LoadFile] on a stream of whole pixels. The lines come from [malloc]
    without initialisation ([NONE]); [mem l p] is the indeterminate content
    of pixel [p] of line [l]. The local [counter] is never incremented, so
    the test [counter < length] holds for every position when the file is
    not empty, and [fread] is called every time; at end of file [fread]
    stores nothing and the pixel keeps its [malloc]'ed content. *)
Definition LoadFile (stream : list Pixel) (linesize : nat) (mem : nat -> nat -> Pixel)
  : Img.t :=
  let length := List.length stream in
  let '(lines, len', lsz) := ImageData length linesize in
  let counter : nat := 0%nat in
  let '(_, rows) :=
    fold_left (fun st l =>
        let '(pos, rows) := st in
        let '(pos', row) :=
          fold_left (fun st' p =>
              let '(pos, row) := st' in
              if Nat.ltb counter length then
                match nth_error stream pos with
                | Some v => (S pos, row ++ [v])
                | None => (pos, row ++ [mem l p])
                end
              else (pos, row ++ [zero_px]))
            (seq 0 lsz) (pos, []) in
        (pos', rows ++ [row]))
      (seq 0 lines) (0%nat, []) in
  Img.mk len' lines lsz rows.

Definition junk7 : nat -> nat -> Pixel := fun _ _ => mkPixel 7 7 7.

(** C10 (padding): loading a one-pixel stream [[(1,2,3)]] with line size
    1000 pads the image to one line of 1000 pixels, but pixel 1 of the line
    keeps its uninitialised content (here (7,7,7)) instead of (0,0,0), and
    the pre-search of that column does not count the entry (0,0,0). *)
Theorem load_padding_not_zero :
  Img.length (LoadFile [mkPixel 1 2 3] a_linesize junk7) = 1000%nat
  /\ Img.lines (LoadFile [mkPixel 1 2 3] a_linesize junk7) = 1%nat
  /\ List.length (nth 0 (Img.pixels (LoadFile [mkPixel 1 2 3] a_linesize junk7)) []) = 1000%nat
  /\ nth 0 (nth 0 (Img.pixels (LoadFile [mkPixel 1 2 3] a_linesize junk7)) []) zero_px
     = mkPixel 1 2 3
  /\ nth 1 (nth 0 (Img.pixels (LoadFile [mkPixel 1 2 3] a_linesize junk7)) []) zero_px
     = mkPixel 7 7 7
  /\ search_pass zero_search
       (nth 1 (nth 0 (Img.pixels (LoadFile [mkPixel 1 2 3] a_linesize junk7)) []) zero_px) [0]
     = [0].
Proof. repeat split; vm_compute; reflexivity. Qed.

(** * Further properties of the programs *)


(** [WriteFile]: [fopen(filename, "wb")] ([fs_ok] tells whether it
    succeeds), then one [fwrite] of each pixel, line by line. *)
Definition WriteFile (fs_ok : bool) (im : Img.t) : string + list Pixel :=
  if fs_ok then
    inr (flat_map (fun l => map (fun p => nth p (nth l (Img.pixels im) []) zero_px)
                              (seq 0 (Img.linesize im)))
                  (seq 0 (Img.lines im)))
  else inl "Cannot open file for writing"%string.

Lemma ImageData_shape (n ls : nat) :
  match ImageData n ls with
  | (lines, len', lsz) =>
      (lines * lsz = len' /\ n <= len'
       /\ (ls = 0 -> lines = 1 /\ len' = n)
       /\ (0 < ls -> lsz = ls /\ len' < n + ls /\ len' mod ls = 0
                    /\ lines = (n + ls - 1) / ls))%nat
  end.
Proof.
  unfold ImageData. destruct (Nat.eqb_spec ls 0) as [->|Hls].
  - repeat split; intros; lia.
  - pose proof (Nat.div_mod n ls Hls) as Hd. pose proof (Nat.mod_upper_bound n ls Hls) as Hm.
    set (q := (n / ls)%nat) in *.
    replace (n - q * ls)%nat with (n mod ls)%nat by lia.
    destruct (Nat.ltb_spec 0 (n mod ls)) as [Hr|Hr].
    + assert (Hq : ((n + ls - 1) / ls)%nat = S q).
      { symmetry; apply Nat.div_unique with (n mod ls - 1)%nat; lia. }
      assert (Hmod : ((n + (ls - n mod ls)) mod ls = 0)%nat).
      { replace (n + (ls - n mod ls))%nat with (S q * ls)%nat by lia.
        apply Nat.Div0.mod_mul. }
      repeat split; intros; lia.
    + assert (Hq : ((n + ls - 1) / ls)%nat = q).
      { symmetry; apply Nat.div_unique with (ls - 1)%nat; lia. }
      assert (Hmod : (n mod ls = 0)%nat) by lia.
      repeat split; intros; lia.
Qed.

(** The inner [p] loop of [LoadFile] on a non-empty file, started at
    stream position [min (base + a) length]. *)
Lemma load_inner (s : list Pixel) (g : nat -> Pixel)
  (f : nat * list Pixel -> nat -> nat * list Pixel) (base : nat) :
  (forall pos row p, f (pos, row) p =
     match nth_error s pos with
     | Some v => (S pos, row ++ [v])
     | None => (pos, row ++ [g p])
     end) ->
  forall n a row,
    fold_left f (seq a n) (Nat.min (base + a) (List.length s), row) =
    (Nat.min (base + a + n) (List.length s),
     row ++ map (fun p => if Nat.ltb (base + p) (List.length s)
                          then nth (base + p) s zero_px else g p) (seq a n)).
Proof.
  intros Hf n. induction n as [|n IH]; intros a row.
  - simpl. rewrite Nat.add_0_r, app_nil_r. reflexivity.
  - cbn [seq fold_left map]. rewrite Hf.
    destruct (Nat.ltb_spec (base + a) (List.length s)) as [Hlt|Hge].
    + rewrite Nat.min_l by lia.
      rewrite (nth_error_nth' s zero_px Hlt).
      replace (S (base + a)) with (Nat.min (base + S a) (List.length s)) by lia.
      rewrite IH, <- app_assoc. f_equal. lia.
    + rewrite Nat.min_r by lia.
      assert (He : nth_error s (List.length s) = None) by (apply nth_error_None; lia).
      rewrite He.
      replace (List.length s) with (Nat.min (base + S a) (List.length s)) at 1 by lia.
      rewrite IH, <- app_assoc. f_equal. lia.
Qed.

(** The outer [l] loop of [LoadFile] on a non-empty file. *)
Lemma load_outer (s : list Pixel) (lsz : nat) (G : nat -> nat -> Pixel)
  (F : nat * list (list Pixel) -> nat -> nat * list (list Pixel)) :
  (forall pos rows l, exists f,
      (forall pos row p, f (pos, row) p =
         match nth_error s pos with
         | Some v => (S pos, row ++ [v])
         | None => (pos, row ++ [G l p])
         end)
      /\ F (pos, rows) l = let '(pos', row) := fold_left f (seq 0 lsz) (pos, []) in
                           (pos', rows ++ [row])) ->
  forall m, fold_left F (seq 0 m) (0%nat, []) =
    (Nat.min (m * lsz) (List.length s),
     map (fun l => map (fun p => if Nat.ltb (l * lsz + p) (List.length s)
                                 then nth (l * lsz + p) s zero_px else G l p) (seq 0 lsz))
         (seq 0 m)).
Proof.
  intros HF m. induction m as [|m IH]; [reflexivity|].
  rewrite seq_S, fold_left_app, IH. cbn [fold_left].
  rewrite !Nat.add_0_l.
  match goal with |- context [F (?pos, ?rows) m] =>
    destruct (HF pos rows m) as [f [Hf HFe]]; rewrite HFe end.
  pose proof (load_inner s (G m) f (m * lsz) Hf lsz 0 []) as Hi.
  rewrite Nat.add_0_r in Hi. rewrite Hi. simpl. rewrite map_app. f_equal. f_equal. lia.
Qed.

Lemma map_nth_seq_self (s : list Pixel) :
  map (fun k => nth k s zero_px) (seq 0 (List.length s)) = s.
Proof.
  induction s as [|x s IH]; [reflexivity|].
  simpl. f_equal. rewrite <- seq_shift, map_map. exact IH.
Qed.

Lemma map_seq_offset {B} (h : nat -> B) (b a n : nat) :
  map (fun p => h (b + p)%nat) (seq a n) = map h (seq (b + a) n).
Proof.
  revert a; induction n as [|n IH]; intros a; [reflexivity|].
  simpl. rewrite IH. replace (b + S a)%nat with (S (b + a)) by lia. reflexivity.
Qed.

Lemma flat_map_rows {B} (h : nat -> B) (lsz m : nat) :
  flat_map (fun l => map (fun p => h (l * lsz + p)%nat) (seq 0 lsz)) (seq 0 m)
  = map h (seq 0 (m * lsz)).
Proof.
  induction m as [|m IH]; [reflexivity|].
  rewrite seq_S, flat_map_app, IH. simpl. rewrite app_nil_r.
  replace (lsz + m * lsz)%nat with (m * lsz + lsz)%nat by lia.
  rewrite seq_app, map_app, map_seq_offset, Nat.add_0_r. reflexivity.
Qed.

(** [LoadFile] on a non-empty file: pixel [p] of line [l] is the stream's
    pixel [l * linesize + p] while the file lasts, and keeps its [malloc]'ed
    content past the end. *)
Lemma LoadFile_nonempty (s : list Pixel) (ls : nat) (mem : nat -> nat -> Pixel) :
  s <> [] ->
  LoadFile s ls mem =
  match ImageData (List.length s) ls with
  | (lines, len', lsz) =>
      Img.mk len' lines lsz
        (map (fun l => map (fun p => if Nat.ltb (l * lsz + p) (List.length s)
                                     then nth (l * lsz + p) s zero_px else mem l p)
                           (seq 0 lsz)) (seq 0 lines))
  end.
Proof.
  intros Hs. assert (Hlen : Nat.ltb 0 (List.length s) = true).
  { destruct s; [congruence|reflexivity]. }
  unfold LoadFile. destruct (ImageData (List.length s) ls) as [[lines len'] lsz].
  erewrite load_outer; [reflexivity|].
  intros pos rows l. eexists. split; [|reflexivity].
  intros pos' row p. cbv beta iota. rewrite Hlen. reflexivity.
Qed.

Lemma LoadFile_empty (ls : nat) (mem : nat -> nat -> Pixel) :
  WriteFile true (LoadFile [] ls mem) = inr [] /\ Img.length (LoadFile [] ls mem) = 0%nat.
Proof. destruct ls; split; reflexivity. Qed.

(** Extra (rawimage.h, LoadFile and ImageData): the loaded image has
    [lines] rows of [linesize] pixels each, and its header fields are the
    ones ImageData computes from the pixel length of the stream. *)
Theorem LoadFile_shape (s : list Pixel) (ls : nat) (mem : nat -> nat -> Pixel) :
  List.length (Img.pixels (LoadFile s ls mem)) = Img.lines (LoadFile s ls mem)
  /\ Forall (fun row => List.length row = Img.linesize (LoadFile s ls mem))
            (Img.pixels (LoadFile s ls mem))
  /\ ImageData (List.length s) ls
     = (Img.lines (LoadFile s ls mem), Img.length (LoadFile s ls mem),
        Img.linesize (LoadFile s ls mem)).
Proof.
  destruct s as [|x s].
  - destruct ls; repeat split; repeat constructor.
  - rewrite LoadFile_nonempty by discriminate.
    destruct (ImageData (List.length (x :: s)) ls) as [[lines len'] lsz]. cbn [Img.pixels Img.lines Img.length Img.linesize].
    split; [rewrite length_map; apply length_seq|]. split; [|reflexivity].
    apply Forall_forall. intros row Hrow. apply in_map_iff in Hrow as [l [<- _]].
    rewrite length_map. apply length_seq.
Qed.

Lemma nth_map_seq {B} (f : nat -> B) (n k : nat) (d : B) :
  (k < n)%nat -> nth k (map f (seq 0 n)) d = f k.
Proof.
  intros Hk. rewrite (nth_indep _ d (f 0%nat)) by (rewrite length_map, length_seq; lia).
  rewrite map_nth, seq_nth by lia. reflexivity.
Qed.

(** Extra (rawimage.h, LoadFile then WriteFile): writing a loaded image
    back emits the stream's pixels unchanged and in order, followed by
    the pixels of the padding (the line memory [mem] past the end of the
    stream, up to the padded length). *)
Theorem LoadFile_WriteFile (s : list Pixel) (ls : nat) (mem : nat -> nat -> Pixel) :
  WriteFile true (LoadFile s ls mem) =
  inr (s ++ map (fun k => mem (k / ls) (k mod ls))%nat
                (seq (List.length s) (Img.length (LoadFile s ls mem) - List.length s))).
Proof.
  destruct s as [|x s0]; [destruct ls; reflexivity|].
  set (s := x :: s0). rewrite LoadFile_nonempty by discriminate.
  pose proof (ImageData_shape (List.length s) ls) as Hsh.
  destruct (ImageData (List.length s) ls) as [[lines len'] lsz].
  destruct Hsh as [Hll [Hle [H0 Hpos]]].
  unfold WriteFile. cbn [Img.pixels Img.lines Img.length Img.linesize]. f_equal.
  set (h := fun k => if Nat.ltb k (List.length s) then nth k s zero_px
                     else mem (k / lsz)%nat (k mod lsz)%nat).
  transitivity (flat_map (fun l => map (fun p => h (l * lsz + p)%nat) (seq 0 lsz)) (seq 0 lines)).
  { rewrite !flat_map_concat_map. f_equal. apply map_ext_in. intros l Hl.
    apply in_seq in Hl. apply map_ext_in. intros p Hp. apply in_seq in Hp.
    rewrite !nth_map_seq by lia. unfold h.
    assert (Hd : ((l * lsz + p) / lsz = l)%nat).
    { symmetry. apply Nat.div_unique with p; lia. }
    assert (Hm : ((l * lsz + p) mod lsz = p)%nat).
    { symmetry. apply Nat.mod_unique with l; lia. }
    rewrite Hd, Hm. reflexivity. }
  rewrite flat_map_rows, Hll.
  replace len' with (List.length s + (len' - List.length s))%nat at 1 by lia.
  rewrite seq_app, map_app. f_equal.
  - rewrite <- (map_nth_seq_self s) at 2. apply map_ext_in. intros k Hk.
    apply in_seq in Hk. unfold h. destruct (Nat.ltb_spec k (List.length s)); [reflexivity|lia].
  - destruct (Nat.eq_dec ls 0) as [->|Hls].
    + destruct (H0 eq_refl) as [_ ->]. rewrite Nat.sub_diag. reflexivity.
    + destruct (Hpos ltac:(lia)) as [-> _].
      apply map_ext_in. intros k Hk. apply in_seq in Hk. unfold h.
      destruct (Nat.ltb_spec k (List.length s)); [lia|reflexivity].
Qed.

(** ** Channel ranges *)

Lemma int_wrap_range (z : Z) : -2 ^ 31 <= int_wrap z < 2 ^ 31.
Proof. unfold int_wrap. pose proof (Z.mod_pos_bound (z + 2 ^ 31) (2 ^ 32)). lia. Qed.

Lemma int_wrap_id (z : Z) : -2 ^ 31 <= z < 2 ^ 31 -> int_wrap z = z.
Proof.
  intros H. unfold int_wrap. rewrite Z.mod_small by lia. lia.
Qed.

Lemma quot_bounds (a b : Z) : 0 < b ->
  (0 <= a -> 0 <= b * Z.quot a b <= a) /\ (a <= 0 -> a <= b * Z.quot a b <= 0).
Proof.
  intros Hb. split; intros Ha.
  - apply Z.mul_quot_le; lia.
  - apply Z.mul_quot_ge; lia.
Qed.

Definition byte_px (q : Pixel) : Prop :=
  0 <= red q <= 255 /\ 0 <= green q <= 255 /\ 0 <= blue q <= 255.

Definition grey_px (q : Pixel) : Prop := red q = green q /\ green q = blue q.

Lemma Greyscale_grey (q : Pixel) : grey_px (Greyscale q).
Proof. split; reflexivity. Qed.

Lemma XOR_grey (q : Pixel) (v : Z) : grey_px q -> grey_px (XOR q v).
Proof. intros [H1 H2]. unfold XOR, grey_px; simpl. rewrite H1, H2. split; reflexivity. Qed.

Lemma lxor13_byte (x : Z) : 0 <= x <= 255 -> 0 <= Z.lxor x 13 <= 255.
Proof.
  intros Hx.
  assert (Hall : forallb (fun n => let y := Z.lxor (Z.of_nat n) 13 in (0 <=? y) && (y <=? 255))
                   (seq 0 256) = true) by (vm_compute; reflexivity).
  rewrite forallb_forall in Hall.
  specialize (Hall (Z.to_nat x) ltac:(apply in_seq; lia)).
  rewrite Z2Nat.id in Hall by lia. apply andb_true_iff in Hall as [H1 H2].
  apply Z.leb_le in H1. apply Z.leb_le in H2. lia.
Qed.

Lemma XOR13_byte (q : Pixel) : byte_px q -> byte_px (XOR q 13).
Proof.
  intros [Hr [Hg Hb]]. unfold XOR, byte_px; simpl. repeat split; apply lxor13_byte; lia.
Qed.

Lemma Greyscale_byte (q : Pixel) : byte_px q -> byte_px (Greyscale q).
Proof.
  intros [Hr [Hg Hb]]. unfold Greyscale, idiv, iadd, byte_px; simpl.
  rewrite (int_wrap_id (red q + green q)) by lia.
  rewrite (int_wrap_id (red q + green q + blue q)) by lia.
  destruct (quot_bounds (red q + green q + blue q) 3 ltac:(lia)) as [Hq _].
  specialize (Hq ltac:(lia)).
  rewrite int_wrap_id by lia. repeat split; lia.
Qed.

Lemma nth_byte (row : list Pixel) (j : nat) :
  Forall byte_px row -> byte_px (nth j row zero_px).
Proof.
  intros H. destruct (Nat.lt_ge_cases j (List.length row)) as [Hj|Hj].
  - rewrite Forall_forall in H. apply H, nth_In, Hj.
  - rewrite nth_overflow by exact Hj. unfold byte_px, zero_px; simpl; lia.
Qed.

Lemma Forall_set_nth {A} (P : A -> Prop) (n : nat) (l : list A) (x : A) :
  Forall P l -> P x -> Forall P (set_nth n l x).
Proof.
  revert n; induction l as [|h t IH]; intros [|n] Hl Hx; simpl; auto;
    inversion Hl; subst; constructor; auto.
Qed.

Lemma ch_sum_byte (f : Pixel -> Z) (ws : list Pixel) :
  (forall q, byte_px q -> 0 <= f q <= 255) -> Forall byte_px ws ->
  0 <= fold_right (fun q s => f q + s) 0 ws <= 255 * Z.of_nat (List.length ws).
Proof.
  intros Hf Hws. induction Hws as [|q ws Hq Hws IH]; simpl; [lia|].
  specialize (Hf q Hq). lia.
Qed.

(** The bleed of one channel keeps it in [0 .. 255] when the window and
    the current value are. *)
Lemma bleed_channel_byte (sum cur pixlen : Z) :
  1 <= pixlen <= 10 -> 0 <= sum <= 255 * pixlen -> 0 <= cur <= 255 ->
  0 <= iadd cur (idiv (isub (idiv (int_wrap sum) pixlen) cur) 3) <= 255.
Proof.
  intros Hp Hs Hc. unfold iadd, isub, idiv.
  rewrite (int_wrap_id sum) by lia.
  destruct (quot_bounds sum pixlen ltac:(lia)) as [Hq _]. specialize (Hq ltac:(lia)).
  assert (Ha : 0 <= Z.quot sum pixlen <= 255) by nia.
  rewrite (int_wrap_id (Z.quot sum pixlen)) by lia.
  set (a := Z.quot sum pixlen) in *.
  rewrite (int_wrap_id (a - cur)) by lia.
  destruct (quot_bounds (a - cur) 3 ltac:(lia)) as [Hq1 Hq2].
  destruct (Z.le_ge_cases 0 (a - cur)) as [Hd|Hd].
  - specialize (Hq1 Hd). rewrite (int_wrap_id (Z.quot (a - cur) 3)) by lia.
    rewrite int_wrap_id; lia.
  - specialize (Hq2 ltac:(lia)). rewrite (int_wrap_id (Z.quot (a - cur) 3)) by lia.
    rewrite int_wrap_id; lia.
Qed.

Lemma bleed_byte (row : list Pixel) (p : nat) :
  Forall byte_px row -> Forall byte_px (bleed row p).
Proof.
  intros Hrow. unfold bleed. destruct (Nat.eqb_spec p 0) as [_|Hp]; [exact Hrow|].
  set (startpix := if Nat.ltb 10 p then (p - 10)%nat else 0%nat).
  set (pixlen := if Nat.ltb 10 p then 10 else Z.of_nat p).
  assert (Hw : Z.of_nat (List.length (map (fun j => nth j row zero_px) (seq startpix (p - startpix))))
               = pixlen /\ 1 <= pixlen <= 10).
  { rewrite length_map, length_seq. unfold startpix, pixlen.
    destruct (Nat.ltb_spec 10 p); lia. }
  assert (Hwb : Forall byte_px (map (fun j => nth j row zero_px) (seq startpix (p - startpix)))).
  { apply Forall_forall. intros q Hq. apply in_map_iff in Hq as [j [<- _]].
    apply nth_byte, Hrow. }
  rewrite window_sum_spec. unfold ch_sum.
  pose proof (nth_byte row p Hrow) as [Hr [Hg Hb]].
  apply Forall_set_nth; [exact Hrow|]. destruct Hw as [Hw Hpl].
  unfold byte_px; simpl. rewrite <- Hw in Hpl |- *.
  repeat split; apply bleed_channel_byte; try lia;
    apply ch_sum_byte; try exact Hwb; intros q [? [? ?]]; lia.
Qed.

Lemma transform_byte (row : list Pixel) (p : nat) :
  Forall byte_px row -> Forall byte_px (transform row p).
Proof.
  intros H. unfold transform. pose proof (bleed_byte row p H) as Hb.
  apply Forall_set_nth; [exact Hb|]. apply XOR13_byte, Greyscale_byte, nth_byte, Hb.
Qed.

Lemma transform_grey (row : list Pixel) (p : nat) :
  (p < List.length row)%nat -> grey_px (nth p (transform row p) zero_px).
Proof.
  intros Hp. unfold transform. rewrite nth_set_nth_eq by (rewrite bleed_length; exact Hp).
  apply XOR_grey, Greyscale_grey.
Qed.

(** Every column the reference loop has passed is grey, whatever the
    input. *)
Lemma fold_transform_grey (row : list Pixel) (k : nat) :
  (k <= List.length row)%nat ->
  forall j, (j < k)%nat -> grey_px (nth j (fold_left transform (seq 0 k) row) zero_px).
Proof.
  induction k as [|k IH]; intros Hk j Hj; [lia|].
  rewrite seq_S, fold_left_app. simpl.
  destruct (Nat.eq_dec j k) as [->|Hjk].
  - apply transform_grey. rewrite fold_transform_length. lia.
  - rewrite transform_other by exact Hjk. apply IH; lia.
Qed.


(** Extra (rawimage.h, ImageData): the geometry is consistent:
    [lines * linesize = length], the length never shrinks, line size 0
    gives one line of the given length, and a positive line size [ls] gives
    [ceil(n / ls)] lines with the length rounded up to the next multiple of
    [ls] (less than [n + ls]). *)
Theorem ImageData_geometry (n ls : nat) :
  match ImageData n ls with
  | (lines, len', lsz) =>
      (lines * lsz = len' /\ n <= len'
       /\ (ls = 0 -> lines = 1 /\ len' = n)
       /\ (0 < ls -> lsz = ls /\ len' < n + ls /\ len' mod ls = 0
                    /\ lines = (n + ls - 1) / ls))%nat
  end.
Proof. apply ImageData_shape. Qed.

(** Extra (process-b.c, p loop): if every input channel lies in
    [0, 255], every pixel of the output row has channels in [0, 255] and is
    grey (its three channels are equal). *)
Theorem b_loop_byte_grey (search row : list Pixel) (cnt : list Z) :
  Forall byte_px row ->
  Forall (fun q => byte_px q /\ grey_px q) (fst (b_loop search row cnt)).
Proof.
  intros H. unfold b_loop. rewrite b_fold_fst. simpl.
  assert (Hb : forall l r, Forall byte_px r -> Forall byte_px (fold_left transform l r)).
  { induction l as [|p l IH]; intros r Hr; simpl; auto. apply IH, transform_byte, Hr. }
  apply Forall_forall. intros q Hq.
  apply (In_nth _ _ zero_px) in Hq as [j [Hj <-]].
  rewrite fold_transform_length in Hj.
  split.
  - apply nth_byte, Hb, H.
  - apply fold_transform_grey; lia.
Qed.

(** Extra (rawimage.h, Greyscale): Greyscale yields three equal channels
    and applying it twice is the same as applying it once, for every
    [int] input (with 32-bit wrap-around). *)
Theorem Greyscale_idempotent (q : Pixel) :
  red (Greyscale q) = green (Greyscale q) /\ green (Greyscale q) = blue (Greyscale q)
  /\ Greyscale (Greyscale q) = Greyscale q.
Proof.
  split; [reflexivity|]. split; [reflexivity|].
  set (s := iadd (iadd (red q) (green q)) (blue q)).
  assert (Hs : -2 ^ 31 <= s < 2 ^ 31) by apply int_wrap_range.
  destruct (quot_bounds s 3 ltac:(lia)) as [Hq1 Hq2].
  assert (Ha : -2 ^ 31 <= 3 * Z.quot s 3 < 2 ^ 31).
  { destruct (Z.le_ge_cases 0 s); [specialize (Hq1 H)|specialize (Hq2 ltac:(lia))]; lia. }
  assert (Hg : Greyscale q = mkPixel (Z.quot s 3) (Z.quot s 3) (Z.quot s 3)).
  { unfold Greyscale, idiv. fold s. rewrite int_wrap_id by lia. reflexivity. }
  rewrite Hg. unfold Greyscale, idiv, iadd. cbn [red green blue].
  set (a := Z.quot s 3) in *.
  rewrite (int_wrap_id (a + a)) by lia. rewrite (int_wrap_id (a + a + a)) by lia.
  replace (a + a + a) with (a * 3) by lia. rewrite Z.quot_mul by lia.
  rewrite int_wrap_id by lia. reflexivity.
Qed.

(** Extra (rawimage.h, XOR): XOR by the same value twice restores the
    pixel. *)
Theorem XOR_involutive (q : Pixel) (v : Z) : XOR (XOR q v) v = q.
Proof.
  destruct q as [r g b]. unfold XOR; simpl.
  rewrite !Z.lxor_assoc, !Z.lxor_nilpotent, !Z.lxor_0_r. reflexivity.
Qed.

(** ** Counting in the reference loop *)

(** The counter increments of the reference loop over the columns [l],
    in order: the matches of each column's value before and after its
    transform. *)
Fixpoint b_hits (search : list Pixel) (l : list nat) (row : list Pixel) : list nat :=
  match l with
  | [] => []
  | p :: l' =>
      search_hits search (nth p row zero_px)
      ++ search_hits search (nth p (transform row p) zero_px)
      ++ b_hits search l' (transform row p)
  end.

Lemma b_fold_hits (search : list Pixel) (l : list nat) (row : list Pixel) (c : list Z) :
  fold_left (b_step search) l (row, c)
  = (fold_left transform l row, fold_left incr (b_hits search l row) c).
Proof.
  revert row c; induction l as [|p l IH]; intros row c; [reflexivity|].
  simpl. rewrite IH, !search_pass_hits, !fold_left_app. reflexivity.
Qed.

Lemma b_hits_app (search : list Pixel) (l1 l2 : list nat) (row : list Pixel) :
  b_hits search (l1 ++ l2) row
  = b_hits search l1 row ++ b_hits search l2 (fold_left transform l1 row).
Proof.
  revert row; induction l1 as [|p l1 IH]; intros row; [reflexivity|].
  simpl. rewrite IH, !app_assoc. reflexivity.
Qed.

Lemma count_filter_seq (f : nat -> bool) (a n i : nat) :
  count_occ Nat.eq_dec (filter f (seq a n)) i
  = if Nat.leb a i && Nat.ltb i (a + n) && f i then 1%nat else 0%nat.
Proof.
  revert a; induction n as [|n IH]; intros a.
  - simpl. destruct (Nat.leb_spec a i), (Nat.ltb_spec i (a + 0)); simpl; auto; lia.
  - cbn [seq filter]. destruct (Nat.eq_dec a i) as [->|Hai].
    + destruct (f i) eqn:Ef; cbn [count_occ]; rewrite IH;
        try (destruct (Nat.eq_dec i i); [|congruence]);
        destruct (Nat.leb_spec (S i) i), (Nat.leb_spec i i), (Nat.ltb_spec i (i + S n));
        simpl; try rewrite Ef; simpl; lia.
    + destruct (f a) eqn:Ef; cbn [count_occ]; rewrite IH;
        try (destruct (Nat.eq_dec a i); [congruence|]);
        destruct (Nat.leb_spec (S a) i), (Nat.leb_spec a i), (Nat.ltb_spec i (S a + n)),
                 (Nat.ltb_spec i (a + S n)), (f i); simpl; lia.
Qed.

Lemma count_search_hits (search : list Pixel) (v : Pixel) (i : nat) :
  (i < List.length search)%nat ->
  count_occ Nat.eq_dec (search_hits search v) i
  = if px_eqb v (nth i search zero_px) then 1%nat else 0%nat.
Proof.
  intros Hi. unfold search_hits. rewrite count_filter_seq.
  destruct (Nat.leb_spec 0 i); [|lia]. destruct (Nat.ltb_spec i (0 + List.length search)); [|lia].
  reflexivity.
Qed.

Lemma b_hits_count (search row : list Pixel) (i k : nat) :
  (i < List.length search)%nat -> (k <= List.length row)%nat ->
  count_occ Nat.eq_dec (b_hits search (seq 0 k) row) i
  = (List.length (filter (fun p => px_eqb (nth p row zero_px) (nth i search zero_px)) (seq 0 k))
     + List.length (filter (fun p => px_eqb (nth p (fold_left transform (seq 0 (List.length row)) row)
                                                zero_px) (nth i search zero_px)) (seq 0 k)))%nat.
Proof.
  intros Hi. induction k as [|k IH]; intros Hk; [reflexivity|].
  rewrite seq_S, b_hits_app, count_occ_app, IH by lia. simpl.
  rewrite app_nil_r, !count_occ_app, !count_search_hits by exact Hi.
  rewrite !filter_app, !length_app. simpl.
  rewrite fold_transform_other by (rewrite in_seq; lia).
  replace (nth k (transform (fold_left transform (seq 0 k) row) k) zero_px)
    with (nth k (fold_left transform (seq 0 (List.length row)) row) zero_px).
  - destruct (px_eqb (nth k row zero_px) _), (px_eqb (nth k (fold_left transform _ row) zero_px) _);
      simpl; lia.
  - replace (List.length row) with (S k + (List.length row - S k))%nat by lia.
    rewrite seq_app, fold_left_app, fold_transform_other by (rewrite in_seq; lia).
    rewrite seq_S, fold_left_app. reflexivity.
Qed.

Definition ulong_range (c : list Z) : Prop := Forall (fun z => 0 <= z < 2 ^ 64) c.

Lemma fold_incr_range (H : list nat) (c : list Z) :
  ulong_range c -> ulong_range (fold_left incr H c).
Proof.
  revert c; induction H as [|j H IH]; intros c Hc; simpl; auto.
  apply IH. unfold incr. apply Forall_set_nth; [exact Hc|].
  unfold ulong_wrap. apply Z.mod_pos_bound. lia.
Qed.

Lemma zeros_range (n : nat) : ulong_range (zeros n).
Proof. unfold ulong_range, zeros. apply Forall_forall. intros z Hz. apply repeat_spec in Hz. lia. Qed.

(** Value of a counter reached by increments from an in-range start. *)
Lemma fold_incr_nth (H : list nat) (c : list Z) (i : nat) :
  ulong_range c -> (i < List.length c)%nat ->
  nth i (fold_left incr H c) 0 = (nth i c 0 + Z.of_nat (count_occ Nat.eq_dec H i)) mod 2 ^ 64.
Proof.
  intros Hc Hi.
  pose proof (fold_incr_delta H c i Hi) as Hd. unfold ulong_wrap in Hd.
  assert (Ha : 0 <= nth i (fold_left incr H c) 0 < 2 ^ 64).
  { pose proof (fold_incr_range H c Hc) as Hr. unfold ulong_range in Hr. rewrite Forall_forall in Hr.
    apply Hr, nth_In. rewrite fold_incr_length. exact Hi. }
  rewrite <- (Z.mod_small (nth i (fold_left incr H c) 0) (2 ^ 64)) by exact Ha.
  replace (nth i (fold_left incr H c) 0)
    with (nth i c 0 + (nth i (fold_left incr H c) 0 - nth i c 0)) at 1 by lia.
  rewrite Z.add_mod, Hd, <- Z.add_mod by lia. reflexivity.
Qed.

Lemma filter_none {B} (f : B -> bool) (l : list B) :
  (forall x, In x l -> f x = false) -> filter f l = [].
Proof.
  induction l as [|x l IH]; intros H; simpl; auto.
  rewrite H by (left; auto). apply IH. intros; apply H; right; auto.
Qed.

Lemma b_loop_counts_aux (search row : list Pixel) (i : nat) :
  (i < List.length search)%nat ->
  nth i (snd (b_loop search row (zeros (List.length search)))) 0
  = Z.of_nat
      (List.length (filter (fun p => px_eqb (nth p row zero_px) (nth i search zero_px))
                           (seq 0 (List.length row)))
       + List.length (filter (fun p => px_eqb (nth p (fst (b_loop search row
                                                          (zeros (List.length search))))
                                                  zero_px) (nth i search zero_px))
                             (seq 0 (List.length row)))) mod 2 ^ 64.
Proof.
  intros Hi. unfold b_loop. rewrite b_fold_hits. cbn [fst snd].
  rewrite fold_incr_nth by (try apply zeros_range; unfold zeros; rewrite repeat_length; exact Hi).
  rewrite b_hits_count by (auto; lia).
  unfold zeros. rewrite nth_repeat. reflexivity.
Qed.

(** Extra (counters of process-b.c): starting from zeroed counters, counter
    [i] of the reference loop is the number of columns whose original value
    equals search entry [i] plus the number of columns whose final
    transformed value equals it, modulo 2^64. *)
Theorem b_loop_counts (search row : list Pixel) (i : nat) :
  (i < List.length search)%nat ->
  nth i (snd (b_loop search row (zeros (List.length search)))) 0
  = Z.of_nat
      (List.length (filter (fun p => px_eqb (nth p row zero_px) (nth i search zero_px))
                           (seq 0 (List.length row)))
       + List.length (filter (fun p => px_eqb (nth p (fst (b_loop search row
                                                          (zeros (List.length search))))
                                                  zero_px) (nth i search zero_px))
                             (seq 0 (List.length row)))) mod 2 ^ 64.
Proof. apply b_loop_counts_aux. Qed.

Lemma px_eqb_grey (a b : Pixel) : px_eqb a b = true -> grey_px a -> grey_px b.
Proof.
  unfold px_eqb, grey_px. intros H [H1 H2].
  apply andb_true_iff in H as [H H3]. apply andb_true_iff in H as [H4 H5].
  apply Z.eqb_eq in H3, H4, H5. split; congruence.
Qed.

(** Extra (process-b.c, second search): a search entry whose channels are
    not all equal is never matched by a transformed pixel, so its counter is
    the number of original columns equal to it, modulo 2^64. *)
Theorem b_loop_counts_non_grey (search row : list Pixel) (i : nat) :
  (i < List.length search)%nat -> ~ grey_px (nth i search zero_px) ->
  nth i (snd (b_loop search row (zeros (List.length search)))) 0
  = Z.of_nat (List.length (filter (fun p => px_eqb (nth p row zero_px) (nth i search zero_px))
                                  (seq 0 (List.length row)))) mod 2 ^ 64.
Proof.
  intros Hi Hng. rewrite b_loop_counts_aux by exact Hi.
  match goal with |- Z.of_nat (_ + List.length (filter ?f ?l)) mod _ = _ =>
    replace (filter f l) with (@nil nat) end.
  { rewrite Nat.add_0_r. reflexivity. }
  symmetry. apply filter_none. intros p Hp. apply in_seq in Hp.
  destruct (px_eqb _ _) eqn:E; [|reflexivity]. exfalso. apply Hng.
  eapply px_eqb_grey; [exact E|].
  unfold b_loop. rewrite b_fold_fst. apply fold_transform_grey; simpl; lia.
Qed.

(** Extra (process-b.c, search loops): two equal entries of the search
    list end with equal counters. *)
Theorem b_loop_duplicate_counts (search row : list Pixel) (i j : nat) :
  (i < List.length search)%nat -> (j < List.length search)%nat ->
  nth i search zero_px = nth j search zero_px ->
  nth i (snd (b_loop search row (zeros (List.length search)))) 0
  = nth j (snd (b_loop search row (zeros (List.length search)))) 0.
Proof.
  intros Hi Hj Heq. rewrite !b_loop_counts_aux by assumption. rewrite Heq. reflexivity.
Qed.

(** Extra (process-b.c, p loop): the output pixels up to column [k]
    depend only on the input pixels up to column [k] (bleeding reads only
    columns to the left), whatever the counters. *)
Theorem b_loop_prefix (search row1 row2 : list Pixel) (cnt1 cnt2 : list Z) (k : nat) :
  List.length row1 = List.length row2 ->
  (forall j, (j <= k)%nat -> nth j row1 zero_px = nth j row2 zero_px) ->
  forall j, (j <= k)%nat ->
  nth j (fst (b_loop search row1 cnt1)) zero_px = nth j (fst (b_loop search row2 cnt2)) zero_px.
Proof.
  intros Hl Hagree. unfold b_loop. rewrite !b_fold_fst. cbn [fst]. rewrite <- Hl.
  generalize (seq 0 (List.length row1)) as l. intros l.
  revert row1 row2 Hl Hagree. induction l as [|p l IH]; intros row1 row2 Hl Hagree; simpl; auto.
  apply IH.
  - rewrite !transform_length. exact Hl.
  - intros j Hj. destruct (Nat.eq_dec j p) as [->|Hjp].
    + apply transform_prefix; [exact Hl|]. intros j' Hj'. apply Hagree. lia.
    + rewrite !transform_other by exact Hjp. apply Hagree, Hj.
Qed.

(** Extra (process-a_tc4.c row body vs process-b.c p loop): when the line
    size is the row length, the row body of the row-parallel variants
    computes the same row and counters as the sequential reference loop. *)
Theorem a_row_body_b_loop (search row : list Pixel) (cnt : list Z) :
  a_row_body search (List.length row) row cnt = b_loop search row cnt.
Proof.
  unfold a_row_body, b_loop. apply fold_left_ext_in. intros [r c] p _.
  unfold a_step, b_step, transform. replace (bleed_a r p) with (bleed r p); [reflexivity|].
  unfold bleed_a. destruct (Nat.eqb_spec p 0) as [->|Hp]; [reflexivity|].
  destruct (Nat.ltb 10 p); [reflexivity|].
  destruct (Z.ltb_spec 0 (Z.of_nat p)); [reflexivity|lia].
Qed.

(** ** Merging thread-local counters *)

Lemma fold_set_nth_length (g : list Z -> nat -> Z) (l : list nat) (c : list Z) :
  List.length (fold_left (fun c i => set_nth i c (g c i)) l c) = List.length c.
Proof.
  revert c; induction l as [|j l IH]; intros c; simpl; auto.
  rewrite IH. apply set_nth_length.
Qed.

Lemma merge_local_length (c L : list Z) : List.length (merge_local c L) = List.length c.
Proof.
  unfold merge_local.
  apply (fold_set_nth_length (fun c i => ulong_wrap (nth i c 0 + nth i L 0))).
Qed.

Lemma merge_local_nth (c L : list Z) (i : nat) :
  (i < List.length c)%nat ->
  nth i (merge_local c L) 0 = ulong_wrap (nth i c 0 + nth i L 0).
Proof.
  intros Hi. unfold merge_local.
  assert (H : forall n a c', List.length c' = List.length c -> (a + n <= List.length c)%nat ->
    nth i (fold_left (fun c i => set_nth i c (ulong_wrap (nth i c 0 + nth i L 0))) (seq a n) c') 0
    = if Nat.leb a i && Nat.ltb i (a + n) then ulong_wrap (nth i c' 0 + nth i L 0)
      else nth i c' 0).
  { induction n as [|n IH]; intros a c' Hl Han.
    - simpl. destruct (Nat.leb_spec a i), (Nat.ltb_spec i (a + 0)); simpl; auto; lia.
    - cbn [seq fold_left]. rewrite IH by (rewrite ?set_nth_length; lia).
      destruct (Nat.eq_dec i a) as [->|Hia].
      + rewrite nth_set_nth_eq by lia.
        destruct (Nat.leb_spec (S a) a), (Nat.leb_spec a a), (Nat.ltb_spec a (a + S n));
          simpl; try lia; reflexivity.
      + rewrite !nth_set_nth_neq by exact Hia.
        destruct (Nat.leb_spec (S a) i), (Nat.leb_spec a i), (Nat.ltb_spec i (S a + n)),
                 (Nat.ltb_spec i (a + S n)); simpl; try lia; reflexivity. }
  rewrite H by lia. destruct (Nat.leb_spec 0 i), (Nat.ltb_spec i (0 + List.length c));
    simpl; try lia; reflexivity.
Qed.

(** Adding the counters reached by the increments [H] from zero performs
    those increments. *)
Lemma merge_local_incr (c : list Z) (H : list nat) :
  ulong_range c ->
  merge_local c (fold_left incr H (zeros (List.length c))) = fold_left incr H c.
Proof.
  intros Hc. apply nth_ext with (d := 0) (d' := 0).
  { rewrite merge_local_length, fold_incr_length. reflexivity. }
  intros i Hi. rewrite merge_local_length in Hi.
  rewrite merge_local_nth by exact Hi.
  rewrite fold_incr_nth by (try apply zeros_range; unfold zeros; rewrite repeat_length; exact Hi).
  rewrite fold_incr_nth by assumption.
  unfold zeros. rewrite nth_repeat, Z.add_0_l. unfold ulong_wrap.
  rewrite Zplus_mod_idemp_r. reflexivity.
Qed.

Lemma map_nth_seq_all {B} (l : list B) (d : B) :
  map (fun k => nth k l d) (seq 0 (List.length l)) = l.
Proof.
  induction l as [|x l IH]; [reflexivity|].
  simpl. f_equal. rewrite <- seq_shift, map_map. exact IH.
Qed.

Lemma fold_incr_perm (H1 H2 : list nat) (c : list Z) :
  Permutation H1 H2 -> fold_left incr H1 c = fold_left incr H2 c.
Proof. apply fold_left_perm_comm. intros; apply incr_comm. Qed.

(** ** Task-per-row executor (process-a_tc4.c lines 41-114) *)

(** The task of row [l]: [calloc] of [search.length] local counters, the
    row loop on them, then [#pragma omp atomic counter[i] += local[i]] for
    every [i]. Tasks touch disjoint rows and atomic additions commute, so
    running each task as a unit, in the order [order] the tasks complete,
    is one of the executions of the team. *)
Definition a4_task (search : list Pixel) (linesize : nat)
  (st : list (list Pixel) * list Z) (l : nat) : list (list Pixel) * list Z :=
  let '(img, cnt) := st in
  let '(row', local) := a_row_body search linesize (nth l img []) (zeros (List.length search)) in
  (set_nth l img row', merge_local cnt local).

Definition a4_run (search : list Pixel) (linesize : nat) (order : list nat)
  (img : list (list Pixel)) (cnt : list Z) : list (list Pixel) * list Z :=
  fold_left (a4_task search linesize) order (img, cnt).

(** One step of [a3_run]. *)
Definition a3_step (search : list Pixel) (linesize : nat)
  (st : list (list Pixel) * list Z) (tl : nat * nat) : list (list Pixel) * list Z :=
  let '(img, cnt) := st in
  let '(row', cnt') := a_row_body search linesize (nth (snd tl) img []) cnt in
  (set_nth (snd tl) img row', cnt').

Lemma a3_run_fold (search : list Pixel) (ls : nat) (w : list (nat * nat))
  (img : list (list Pixel)) (cnt : list Z) :
  a3_run search ls w img cnt = fold_left (a3_step search ls) w (img, cnt).
Proof. reflexivity. Qed.

Lemma a_row_body_decomp (search : list Pixel) (ls : nat) (row : list Pixel) :
  exists H, forall c, a_row_body search ls row c
                      = (fst (a_row_body search ls row c), fold_left incr H c).
Proof.
  destruct (a_fold_decomp search (seq 0 ls) row) as [H [rowf Hf]].
  exists H. intros c. unfold a_row_body. rewrite Hf. reflexivity.
Qed.

Lemma a4_task_a3_step (search : list Pixel) (ls : nat) (img : list (list Pixel))
  (cnt : list Z) (t l : nat) :
  ulong_range cnt -> List.length cnt = List.length search ->
  a4_task search ls (img, cnt) l = a3_step search ls (img, cnt) (t, l).
Proof.
  intros Hr Hl. unfold a4_task, a3_step. cbn [snd].
  destruct (a_row_body_decomp search ls (nth l img [])) as [H HH].
  rewrite (HH (zeros _)), (HH cnt). cbn [fst snd].
  rewrite (a_row_body_row search ls (nth l img []) (zeros (List.length search)) cnt).
  rewrite <- Hl, merge_local_incr by exact Hr. reflexivity.
Qed.

Lemma a3_step_inv (search : list Pixel) (ls : nat) (img : list (list Pixel))
  (cnt : list Z) (tl : nat * nat) :
  ulong_range cnt ->
  ulong_range (snd (a3_step search ls (img, cnt) tl))
  /\ List.length (snd (a3_step search ls (img, cnt) tl)) = List.length cnt.
Proof.
  intros Hr. unfold a3_step.
  destruct (a_row_body_decomp search ls (nth (snd tl) img [])) as [H HH].
  rewrite (HH cnt). cbn [snd]. split; [apply fold_incr_range, Hr|apply fold_incr_length].
Qed.

Lemma a4_run_a3 (search : list Pixel) (ls : nat) (order : list nat)
  (img : list (list Pixel)) (cnt : list Z) :
  ulong_range cnt -> List.length cnt = List.length search ->
  a4_run search ls order img cnt = a3_run search ls (map (pair 0%nat) order) img cnt.
Proof.
  unfold a4_run. rewrite a3_run_fold.
  revert img cnt; induction order as [|l order IH]; intros img cnt Hr Hl; [reflexivity|].
  cbn [fold_left map]. rewrite (a4_task_a3_step search ls img cnt 0 l Hr Hl).
  destruct (a3_step_inv search ls img cnt (0%nat, l) Hr) as [Hr' Hl'].
  destruct (a3_step search ls (img, cnt) (0%nat, l)) as [img' cnt'] eqn:E.
  apply IH; cbn [snd] in *; [exact Hr'|lia].
Qed.

Lemma a3_step_comm (search : list Pixel) (ls : nat) (st : list (list Pixel) * list Z)
  (x y : nat * nat) :
  a3_step search ls (a3_step search ls st x) y = a3_step search ls (a3_step search ls st y) x.
Proof.
  destruct st as [img cnt]. destruct x as [tx lx], y as [ty ly]. unfold a3_step. cbn [snd].
  destruct (Nat.eq_dec lx ly) as [<-|Hxy]; [reflexivity|].
  destruct (a_row_body_decomp search ls (nth lx img [])) as [Hx HHx].
  destruct (a_row_body_decomp search ls (nth ly img [])) as [Hy HHy].
  rewrite (HHx cnt), (HHy cnt). cbn [fst snd].
  rewrite !nth_set_nth_neq by auto.
  rewrite (HHx (fold_left incr Hy cnt)), (HHy (fold_left incr Hx cnt)). cbn [fst snd].
  rewrite (a_row_body_row search ls (nth lx img []) (fold_left incr Hy cnt) cnt).
  rewrite (a_row_body_row search ls (nth ly img []) (fold_left incr Hx cnt) cnt).
  rewrite <- !fold_left_app, (fold_incr_perm (Hx ++ Hy) (Hy ++ Hx)) by apply Permutation_app_comm.
  rewrite set_nth_comm by auto. reflexivity.
Qed.

Lemma a3_run_threads (search : list Pixel) (ls : nat) (w : list (nat * nat))
  (img : list (list Pixel)) (cnt : list Z) :
  a3_run search ls w img cnt = a3_run search ls (map (pair 0%nat) (map snd w)) img cnt.
Proof.
  rewrite !a3_run_fold. generalize (img, cnt) as st.
  induction w as [|[t l] w IH]; intros st; [reflexivity|]. cbn [fold_left map].
  replace (a3_step search ls st (t, l)) with (a3_step search ls st (0%nat, l))
    by reflexivity.
  apply IH.
Qed.

(** Extra (process-a_tc4.c, tasks per row): from zeroed counters, the
    task-per-row executor with local counters merged atomically ends, for
    every order in which the row tasks run, with the same image and counters
    as the row loop on shared atomic counters ([a3_run]) under any
    assignment of the rows to threads. *)
Theorem a_tc4_matches_a_tc3 (search : list Pixel) (ls : nat) (order : list nat)
  (w : list (nat * nat)) (img : list (list Pixel)) :
  Permutation order (seq 0 (List.length img)) ->
  Permutation (map snd w) (seq 0 (List.length img)) ->
  a4_run search ls order img (zeros (List.length search))
  = a3_run search ls w img (zeros (List.length search)).
Proof.
  intros Ho Hw.
  rewrite a4_run_a3 by (try apply zeros_range; unfold zeros; apply repeat_length).
  rewrite (a3_run_threads search ls w), !a3_run_fold.
  apply fold_left_perm_comm; [intros; apply a3_step_comm|].
  apply Permutation_map. rewrite Hw. exact Ho.
Qed.

(** ** Team-per-run executor with thread-local counters (process-b_tc3.c lines 54-156) *)

(** [#pragma omp for schedule(runtime)] over [i] with [local[i]++] on the
    private array of the thread [t] running iteration [i], which compares
    [t]'s own copy of the captured scalars. *)
Definition tc3_search (search : list Pixel) (scal : nat -> Pixel)
  (w : list (nat * nat)) (locals : list (list Z)) : list (list Z) :=
  fold_left (fun ls ti => local_iter search (scal (fst ti)) (fst ti) ls (snd ti)) w locals.

Definition tc3_cycle (search : list Pixel) (x : Exec)
  (st : list Pixel * list (list Z)) (p : nat) : list Pixel * list (list Z) :=
  let '(row, locals) := st in
  let s0 := capture x p false (nth p row zero_px) in
  let locals1 := tc3_search search s0 (work x p false) locals in
  let row2 := transform_tc (simd_lanes x) row p in
  let s1 := capture x p true (nth p row2 zero_px) in
  let locals2 := tc3_search search s1 (work x p true) locals1 in
  (row2, locals2).

(** The parallel region: each thread [calloc]s its locals, runs the column
    loop, then merges under [#pragma omp critical] in the order [morder]
    the threads enter it. *)
Definition tc3_run (search : list Pixel) (x : Exec) (morder : list nat)
  (row : list Pixel) (cnt : list Z) : list Pixel * list Z :=
  let '(row', locals) :=
    fold_left (tc3_cycle search x) (seq 0 (List.length row))
      (row, repeat (zeros (List.length search)) (nthreads x)) in
  (row', fold_left (fun c t => merge_local c (nth t locals [])) morder cnt).

Lemma map_set_nth {A B} (f : A -> B) (n : nat) (l : list A) (x : A) :
  map f (set_nth n l x) = set_nth n (map f l) (f x).
Proof. revert n; induction l as [|h t IH]; intros [|n]; simpl; f_equal; auto. Qed.

Lemma length_set_nth {A} (n : nat) (l : list A) (x : A) :
  List.length (set_nth n l x) = List.length l.
Proof. revert n; induction l as [|h t IH]; intros [|n]; simpl; auto. Qed.

Lemma concat_set_nth_snoc (Hs : list (list nat)) (t i : nat) :
  (t < List.length Hs)%nat ->
  Permutation (List.concat (set_nth t Hs (nth t Hs [] ++ [i]))) (List.concat Hs ++ [i]).
Proof.
  revert t; induction Hs as [|h Hs IH]; intros [|t] Ht; simpl in *; try lia.
  - rewrite <- !app_assoc. apply Permutation_app_head. apply Permutation_app_comm.
  - rewrite <- app_assoc. apply Permutation_app_head. apply IH. lia.
Qed.

Lemma nth_map_lt {A B} (f : A -> B) (l : list A) (n : nat) (d : B) (d' : A) :
  (n < List.length l)%nat -> nth n (map f l) d = f (nth n l d').
Proof. revert n; induction l as [|h l IH]; intros [|n] Hn; simpl in *; try lia; auto. apply IH; lia. Qed.

Lemma flat_map_nth_seq (Hs : list (list nat)) :
  flat_map (fun t => nth t Hs []) (seq 0 (List.length Hs)) = List.concat Hs.
Proof.
  rewrite flat_map_concat_map, map_nth_seq_all. reflexivity.
Qed.

(** The locals of the team are the histories [Hs] of the threads replayed on
    [calloc]'ed arrays, and the shared counters of process-b_tc2.c are all of
    them replayed on [cnt]. *)
Definition tc3_rel (N : nat) (cnt : list Z) (locals : list (list Z)) (c : list Z)
  (T : nat) : Prop :=
  exists Hs : list (list nat), List.length Hs = T /\
    locals = map (fun H => fold_left incr H (zeros N)) Hs /\
    c = fold_left incr (List.concat Hs) cnt.

Lemma tc3_search_rel (search : list Pixel) (scal : nat -> Pixel) (w : list (nat * nat))
  (cnt : list Z) (locals : list (list Z)) (c : list Z) (T : nat) :
  (forall t i, In (t, i) w -> (t < T)%nat) ->
  tc3_rel (List.length search) cnt locals c T ->
  tc3_rel (List.length search) cnt (tc3_search search scal w locals) (par_search search scal w c) T.
Proof.
  unfold tc3_search, par_search. revert locals c.
  induction w as [|[t i] w IH]; intros locals c Hw Hr; [exact Hr|]. cbn [fold_left fst snd].
  apply IH; [intros; eapply Hw; right; eauto|].
  destruct Hr as [Hs [HT [-> ->]]]. assert (Ht : (t < List.length Hs)%nat) by (rewrite HT; eapply Hw; left; eauto).
  unfold local_iter, search_iter. destruct (px_eqb (scal t) (nth i search zero_px)).
  2:{ exists Hs; auto. }
  exists (set_nth t Hs (nth t Hs [] ++ [i])). split; [rewrite length_set_nth; exact HT|]. split.
  - rewrite map_set_nth, fold_left_app. cbn [fold_left]. f_equal.
    rewrite (nth_map_lt _ _ _ _ [] Ht). reflexivity.
  - rewrite (fold_incr_perm _ _ _ (concat_set_nth_snoc Hs t i Ht)), fold_left_app. reflexivity.
Qed.

Lemma merge_all_rel (N : nat) (cnt : list Z) (Hs : list (list nat)) (morder : list nat) :
  ulong_range cnt -> List.length cnt = N ->
  Permutation morder (seq 0 (List.length Hs)) ->
  fold_left (fun c t => merge_local c (nth t (map (fun H => fold_left incr H (zeros N)) Hs) []))
    morder cnt
  = fold_left incr (List.concat Hs) cnt.
Proof.
  intros Hr Hl Hp.
  assert (Hgen : forall l c, ulong_range c -> List.length c = N ->
    (forall t, In t l -> (t < List.length Hs)%nat) ->
    fold_left (fun c t => merge_local c (nth t (map (fun H => fold_left incr H (zeros N)) Hs) [])) l c
    = fold_left incr (flat_map (fun t => nth t Hs []) l) c).
  { induction l as [|t l IH]; intros c Hc Hcl Hin; [reflexivity|]. cbn [fold_left flat_map].
    rewrite (nth_map_lt _ _ _ _ []) by (apply Hin; left; auto).
    assert (E : merge_local c (fold_left incr (nth t Hs []) (zeros N))
                = fold_left incr (nth t Hs []) c)
      by (rewrite <- Hcl; apply merge_local_incr, Hc).
    rewrite E, fold_left_app. apply IH.
    - apply fold_incr_range, Hc.
    - rewrite fold_incr_length; exact Hcl.
    - intros; apply Hin; right; auto. }
  rewrite Hgen by (auto; intros t Ht; rewrite Hp in Ht; apply in_seq in Ht; lia).
  rewrite <- flat_map_nth_seq. apply fold_incr_perm. rewrite Hp. reflexivity.
Qed.

Lemma concat_repeat_nil {A} (n : nat) : List.concat (repeat (@nil A) n) = [].
Proof. induction n as [|n IH]; [reflexivity|exact IH]. Qed.

(** Extra (process-b_tc3.c, parallel region): for every well-formed team
    execution and every order in which the threads enter the final critical
    merge, the executor with thread-local counters ends with the same row
    and counters as the phased executor with atomic counters of
    process-b_tc2.c ([tc2_loop]) on the same execution. *)
Theorem tc3_matches_tc2 (search row : list Pixel) (x : Exec) (morder : list nat)
  (cnt : list Z) :
  wf_exec x (List.length search) (List.length row) ->
  Permutation morder (seq 0 (nthreads x)) ->
  ulong_range cnt -> List.length cnt = List.length search ->
  tc3_run search x morder row cnt = tc2_loop search x row cnt.
Proof.
  intros [_ [_ Hwf]] Hm Hr Hl. unfold tc3_run, tc2_loop.
  assert (Hgen : forall l row0 locals c, (forall p, In p l -> (p < List.length row)%nat) ->
    tc3_rel (List.length search) cnt locals c (nthreads x) ->
    fst (fold_left (tc3_cycle search x) l (row0, locals))
      = fst (fold_left (tc2_cycle search x) l (row0, c))
    /\ tc3_rel (List.length search) cnt (snd (fold_left (tc3_cycle search x) l (row0, locals)))
         (snd (fold_left (tc2_cycle search x) l (row0, c))) (nthreads x)).
  { induction l as [|p l IH]; intros row0 locals c Hin Hrel; [split; [reflexivity|exact Hrel]|].
    cbn [fold_left]. unfold tc3_cycle at 2, tc2_cycle at 2.
    assert (Hp : (p < List.length row)%nat) by (apply Hin; left; auto).
    destruct (Hwf p Hp) as [_ [_ Hb]].
    apply IH; [intros; apply Hin; right; auto|].
    apply tc3_search_rel; [apply Hb|].
    apply tc3_search_rel; [apply Hb|exact Hrel]. }
  destruct (Hgen (seq 0 (List.length row)) row (repeat (zeros (List.length search)) (nthreads x)) cnt)
    as [Hfst [Hs [HT [Hloc Hc]]]].
  - intros p Hp; apply in_seq in Hp; lia.
  - exists (repeat [] (nthreads x)). split; [apply repeat_length|]. split.
    + rewrite map_repeat. reflexivity.
    + rewrite concat_repeat_nil. reflexivity.
  - destruct (fold_left (tc3_cycle search x) (seq 0 (List.length row))
               (row, repeat (zeros (List.length search)) (nthreads x))) as [r3 l3].
    destruct (fold_left (tc2_cycle search x) (seq 0 (List.length row)) (row, cnt)) as [r2 c2].
    cbn [fst snd] in *. subst. f_equal.
    apply merge_all_rel; auto. rewrite HT. exact Hm.
Qed.

Lemma merge_local_comm (c a b : list Z) :
  merge_local (merge_local c a) b = merge_local (merge_local c b) a.
Proof.
  apply nth_ext with (d := 0) (d' := 0); [rewrite !merge_local_length; reflexivity|].
  intros n Hn. rewrite !merge_local_length in Hn.
  rewrite !merge_local_nth by (rewrite ?merge_local_length; exact Hn).
  unfold ulong_wrap. rewrite !Zplus_mod_idemp_l. f_equal. lia.
Qed.

(** Extra (process-b_tc4.c, critical merge): the final image and counters
    of the tiled executor do not depend on the order in which the threads
    enter the critical section that adds their local counters. *)
Theorem tc4_merge_order (search : list Pixel) (tile : nat) (x : Exec)
  (m1 m2 : list nat) (row : list Pixel) (cnt : list Z) :
  Permutation m1 m2 ->
  tc4_run search tile x m1 row cnt = tc4_run search tile x m2 row cnt.
Proof.
  intros Hp. unfold tc4_run.
  destruct (fold_left (tc4_cycle search tile x) (seq 0 (List.length row))
              (row, repeat (zeros (List.length search)) (nthreads x))) as [row' locals].
  f_equal. apply fold_left_perm_comm; [|exact Hp].
  intros c t u. apply merge_local_comm.
Qed.

From Stdlib Require Import Ascii.

(** ** [PrintRGBValue] (rawimage.h lines 111-116) *)

(** The character of a decimal digit [0 <= d < 10]. *)
Definition digit_char (d : Z) : ascii := ascii_of_nat (48 + Z.to_nat d).

(** Decimal digits of [n >= 0], most significant first, in front of [acc];
    [fuel] bounds the number of digits (11 covers every [int]). *)
Fixpoint utoa (fuel : nat) (n : Z) (acc : string) : string :=
  match fuel with
  | O => acc
  | S f =>
      let acc' := String (digit_char (n mod 10)) acc in
      if n <? 10 then acc' else utoa f (n / 10) acc'
  end.

(** [printf("%d", value)]. *)
Definition print_d (v : Z) : string :=
  if v <? 0 then String "-" (utoa 11 (- v) EmptyString) else utoa 11 v EmptyString.

Definition PrintRGBValue (value : Z) : string :=
  String.append (if Z.ltb value 100 then " " else "")
    (String.append (if Z.ltb value 10 then " " else "") (print_d value)).

(** Extra (rawimage.h, PrintRGBValue): a value in [0, 1000) prints as
    three characters, the decimal digits right-aligned, leading zeros
    printed as spaces. *)
Theorem PrintRGBValue_three (v : Z) :
  0 <= v < 1000 ->
  PrintRGBValue v =
  String (if v <? 100 then " " else digit_char (v / 100))
    (String (if v <? 10 then " " else digit_char ((v / 10) mod 10))
       (String (digit_char (v mod 10)) EmptyString)).
Proof.
  intros Hv. unfold PrintRGBValue, print_d.
  replace (v <? 0) with false by (symmetry; apply Z.ltb_ge; lia).
  cbn [utoa].
  destruct (Z.ltb_spec v 10) as [H10|H10].
  { replace (v <? 100) with true by (symmetry; apply Z.ltb_lt; lia). reflexivity. }
  destruct (Z.ltb_spec (v / 10) 10) as [H10'|H10'].
  - destruct (Z.ltb_spec v 100) as [H100|H100].
    + replace ((v / 10) mod 10) with (v / 10) by (symmetry; apply Z.mod_small; split; [apply Z.div_pos|]; lia).
      reflexivity.
    + exfalso. pose proof (Z.mod_pos_bound v 10 ltac:(lia)). 
      pose proof (Z.div_mod v 10 ltac:(lia)). lia.
  - destruct (Z.ltb_spec v 100) as [H100|H100].
    + exfalso. assert (v / 10 < 10) by (apply Z.div_lt_upper_bound; lia). lia.
    + destruct (Z.ltb_spec (v / 10 / 10) 10) as [H3|H3].
      * rewrite Z.div_div by lia.
        replace ((v / (10 * 10)) mod 10) with (v / 100) by
          (symmetry; apply Z.mod_small; split; [apply Z.div_pos|apply Z.div_lt_upper_bound]; lia).
        reflexivity.
      * exfalso. rewrite Z.div_div in H3 by lia.
        assert (v / (10 * 10) < 10) by (apply Z.div_lt_upper_bound; lia). lia.
Qed.

Lemma utoa_grows (fuel : nat) (n : Z) (acc : string) :
  (1 <= fuel)%nat -> (String.length (utoa fuel n acc) >= S (String.length acc))%nat.
Proof.
  revert n acc; induction fuel as [|f IH]; intros n acc Hf; [lia|]. cbn [utoa].
  destruct (n <? 10); [simpl; lia|].
  destruct f as [|f]; [simpl; lia|].
  assert (Hf' : (1 <= S f)%nat) by lia.
  specialize (IH (n / 10) (String (digit_char (n mod 10)) acc) Hf'). cbn [String.length] in IH. lia.
Qed.

Lemma utoa_step (f : nat) (n : Z) (acc : string) :
  (n <? 10) = false -> utoa (S f) n acc = utoa f (n / 10) (String (digit_char (n mod 10)) acc).
Proof. intros H. cbn [utoa]. rewrite H. reflexivity. Qed.

(** Extra (rawimage.h, PrintRGBValue): a negative value, or one of four
    digits or more, prints at least four characters: the three-place field
    overflows. *)
Theorem PrintRGBValue_wide (v : Z) :
  v < 0 \/ 1000 <= v -> (4 <= String.length (PrintRGBValue v))%nat.
Proof.
  intros Hv. unfold PrintRGBValue, print_d. destruct Hv as [Hv|Hv].
  - replace (v <? 100) with true by (symmetry; apply Z.ltb_lt; lia).
    replace (v <? 10) with true by (symmetry; apply Z.ltb_lt; lia).
    replace (v <? 0) with true by (symmetry; apply Z.ltb_lt; lia).
    pose proof (utoa_grows 11 (- v) EmptyString ltac:(lia)). simpl in *. lia.
  - replace (v <? 100) with false by (symmetry; apply Z.ltb_ge; lia).
    replace (v <? 10) with false by (symmetry; apply Z.ltb_ge; lia).
    replace (v <? 0) with false by (symmetry; apply Z.ltb_ge; lia).
    assert (H1 : 100 <= v / 10) by (apply Z.div_le_lower_bound; lia).
    assert (H2 : 10 <= v / 10 / 10) by (apply Z.div_le_lower_bound; lia).
    rewrite !utoa_step by (apply Z.ltb_ge; lia).
    pose proof (utoa_grows 8 (v / 10 / 10 / 10)
      (String (digit_char ((v / 10 / 10) mod 10))
        (String (digit_char ((v / 10) mod 10)) (String (digit_char (v mod 10)) EmptyString)))
      ltac:(lia)).
    cbn [String.length String.append] in *. lia.
Qed.

(** ** Instances of the properties above *)

Definition byte_row : list Pixel := [mkPixel 10 20 30; mkPixel 255 0 7; mkPixel 5 5 5].

Lemma b_loop_byte_grey_witness :
  Forall byte_px byte_row
  /\ Forall (fun q => byte_px q /\ grey_px q) (fst (b_loop twin_search byte_row (zeros 2))).
Proof.
  assert (H : Forall byte_px byte_row)
    by (repeat constructor; unfold byte_px; simpl; lia).
  split; [exact H|apply (b_loop_byte_grey twin_search byte_row (zeros 2) H)].
Defined.

Lemma b_loop_counts_witness :
  (0 < List.length twin_search)%nat
  /\ nth 0 (snd (b_loop twin_search byte_row (zeros (List.length twin_search)))) 0
     = Z.of_nat
         (List.length (filter (fun p => px_eqb (nth p byte_row zero_px) (nth 0 twin_search zero_px))
                              (seq 0 (List.length byte_row)))
          + List.length (filter (fun p => px_eqb (nth p (fst (b_loop twin_search byte_row
                                                              (zeros (List.length twin_search))))
                                                     zero_px) (nth 0 twin_search zero_px))
                                (seq 0 (List.length byte_row)))) mod 2 ^ 64.
Proof.
  split; [simpl; lia|apply (b_loop_counts twin_search byte_row 0); simpl; lia].
Defined.

Definition colour_search : list Pixel := [mkPixel 10 20 30; mkPixel 8 8 8].

Lemma b_loop_counts_non_grey_witness :
  (0 < List.length colour_search)%nat /\ ~ grey_px (nth 0 colour_search zero_px)
  /\ nth 0 (snd (b_loop colour_search byte_row (zeros (List.length colour_search)))) 0
     = Z.of_nat (List.length (filter (fun p => px_eqb (nth p byte_row zero_px)
                                                      (nth 0 colour_search zero_px))
                                     (seq 0 (List.length byte_row)))) mod 2 ^ 64.
Proof.
  assert (H0 : (0 < List.length colour_search)%nat) by (simpl; lia).
  assert (Hg : ~ grey_px (nth 0 colour_search zero_px)) by (unfold grey_px; simpl; lia).
  split; [exact H0|]. split; [exact Hg|].
  apply (b_loop_counts_non_grey colour_search byte_row 0 H0 Hg).
Defined.

Lemma b_loop_duplicate_counts_witness :
  nth 0 twin_search zero_px = nth 1 twin_search zero_px
  /\ nth 0 (snd (b_loop twin_search byte_row (zeros (List.length twin_search)))) 0
     = nth 1 (snd (b_loop twin_search byte_row (zeros (List.length twin_search)))) 0.
Proof.
  split; [reflexivity|].
  apply (b_loop_duplicate_counts twin_search byte_row 0 1); simpl; try lia; reflexivity.
Defined.

Definition byte_row' : list Pixel := [mkPixel 10 20 30; mkPixel 255 0 7; mkPixel 99 1 2].

Lemma b_loop_prefix_witness :
  List.length byte_row = List.length byte_row'
  /\ (forall j, (j <= 1)%nat -> nth j byte_row zero_px = nth j byte_row' zero_px)
  /\ nth 1 (fst (b_loop twin_search byte_row (zeros 2))) zero_px
     = nth 1 (fst (b_loop twin_search byte_row' [7; 7])) zero_px.
Proof.
  assert (Hl : List.length byte_row = List.length byte_row') by reflexivity.
  assert (Ha : forall j, (j <= 1)%nat -> nth j byte_row zero_px = nth j byte_row' zero_px).
  { intros j Hj. destruct j as [|[|j]]; [reflexivity|reflexivity|lia]. }
  split; [exact Hl|]. split; [exact Ha|].
  apply (b_loop_prefix twin_search byte_row byte_row' (zeros 2) [7; 7] 1 Hl Ha 1); lia.
Defined.

Definition two_rows : list (list Pixel) := [[mkPixel 5 5 5; mkPixel 1 2 3]; [mkPixel 8 8 8]].

Lemma a_tc4_matches_a_tc3_witness :
  Permutation [1; 0]%nat (seq 0 (List.length two_rows))
  /\ Permutation (map snd [(0, 0); (1, 1)]%nat) (seq 0 (List.length two_rows))
  /\ a4_run twin_search 2 [1; 0]%nat two_rows (zeros (List.length twin_search))
     = a3_run twin_search 2 [(0, 0); (1, 1)]%nat two_rows (zeros (List.length twin_search)).
Proof.
  assert (Ho : Permutation [1; 0]%nat (seq 0 (List.length two_rows))) by (simpl; apply perm_swap).
  assert (Hw : Permutation (map snd [(0, 0); (1, 1)]%nat) (seq 0 (List.length two_rows)))
    by (simpl; apply Permutation_refl).
  split; [exact Ho|]. split; [exact Hw|].
  apply (a_tc4_matches_a_tc3 twin_search 2 [1; 0]%nat [(0, 0); (1, 1)]%nat two_rows Ho Hw).
Defined.

Lemma tc3_matches_tc2_witness :
  wf_exec exec_2_static (List.length twin_search) (List.length one_px_row)
  /\ Permutation [1; 0]%nat (seq 0 (nthreads exec_2_static))
  /\ tc3_run twin_search exec_2_static [1; 0]%nat one_px_row (zeros 2)
     = tc2_loop twin_search exec_2_static one_px_row (zeros 2).
Proof.
  assert (Hm : Permutation [1; 0]%nat (seq 0 (nthreads exec_2_static))) by (simpl; apply perm_swap).
  split; [exact exec_2_static_wf|]. split; [exact Hm|].
  apply (tc3_matches_tc2 twin_search one_px_row exec_2_static [1; 0]%nat (zeros 2)
           exec_2_static_wf Hm (zeros_range 2) eq_refl).
Defined.

Lemma tc4_merge_order_witness :
  Permutation [0; 1]%nat [1; 0]%nat
  /\ tc4_run twin_search 1 (exec_tc4 1) [0; 1]%nat one_px_row [3; 4]
     = tc4_run twin_search 1 (exec_tc4 1) [1; 0]%nat one_px_row [3; 4].
Proof.
  assert (Hp : Permutation [0; 1]%nat [1; 0]%nat) by apply perm_swap.
  split; [exact Hp|].
  apply (tc4_merge_order twin_search 1 (exec_tc4 1) [0; 1]%nat [1; 0]%nat one_px_row [3; 4] Hp).
Defined.

Lemma PrintRGBValue_three_witness :
  0 <= 42 < 1000
  /\ PrintRGBValue 42 =
     String (if 42 <? 100 then " " else digit_char (42 / 100))
       (String (if 42 <? 10 then " " else digit_char ((42 / 10) mod 10))
          (String (digit_char (42 mod 10)) EmptyString)).
Proof. split; [lia|apply (PrintRGBValue_three 42); lia]. Defined.

Lemma PrintRGBValue_wide_witness :
  (-5 < 0 \/ 1000 <= -5) /\ (4 <= String.length (PrintRGBValue (-5)))%nat.
Proof. split; [left; lia|apply (PrintRGBValue_wide (-5)); left; lia]. Defined.
